(** * AssosiationRules.py: market-basket analysis pipeline

    A shallow embedding of [src/AssosiationRules.py] and the properties its
    specification states about it.

    Conventions of the embedding.
    - A Python [str] is a Rocq [string] holding its UTF-8 bytes; comparing
      two such strings byte by byte is comparing them code point by code
      point, which is the order Python's [sorted] uses.
    - Python floats (supports, confidences, node sizes) are exact rationals
      [Q]; [+inf] is a separate constructor.
    - A [frozenset] or [set] is a list without duplicates whose order stands
      for the (unspecified) iteration order; a [dict] that is only looked up
      is a [gmap], a [dict] that is iterated is an association list in
      insertion order.
    - A raised exception is the [Raise] constructor of [result]. *)

From Stdlib Require Import ZArith QArith Ascii Lqa.
From stdpp Require Import base list sorting gmap strings.

Local Open Scope Z_scope.

(** ** Exceptions *)

Inductive exn : Type :=
  | ValueError
  | KeyError
  | ZeroDivisionError.

Inductive result (A : Type) : Type :=
  | Ok (a : A)
  | Raise (e : exn).

Arguments Ok {A} a.
Arguments Raise {A} e.

Definition rbind {A B : Type} (r : result A) (k : A → result B) : result B :=
  match r with
  | Ok a => k a
  | Raise e => Raise e
  end.

Notation "'do' x <~ r ; k" := (rbind r (λ x, k))
  (at level 10, x name, r at level 100, k at level 200).

Fixpoint rmapM {A B : Type} (f : A → result B) (l : list A) : result (list B) :=
  match l with
  | [] => Ok []
  | x :: l' => do y <~ f x; do ys <~ rmapM f l'; Ok (y :: ys)
  end.

(** ** Strings *)

Definition bytes_of_str (s : string) : list N :=
  Ascii.N_of_ascii <$> String.list_ascii_of_string s.

Definition str_of_bytes (l : list N) : string :=
  String.string_of_list_ascii (Ascii.ascii_of_N <$> l).

(** [str.isspace] on the ASCII range: TAB..CR, FS..US and the space. *)
Definition is_ascii_space (b : N) : bool :=
  ((9 <=? b) && (b <=? 13) || (28 <=? b) && (b <=? 32))%N.

(** Third byte of the UTF-8 encoding of the white space of U+2000..U+202F:
    U+2000..U+200A, U+2028, U+2029 and U+202F. *)
Definition is_general_punct_space (c : N) : bool :=
  ((128 <=? c) && (c <=? 138) || (c =? 168) || (c =? 169) || (c =? 175))%N.

(** Leading white space, as [str.lstrip()] removes it: the ASCII white space
    and the encodings of U+0085, U+00A0, U+1680, U+2000..U+200A, U+2028,
    U+2029, U+202F, U+205F and U+3000. *)
Fixpoint lstrip_bytes (l : list N) : list N :=
  match l with
  | [] => []
  | b :: r =>
      if is_ascii_space b then lstrip_bytes r
      else match b, r with
           | 194%N, c :: r1 =>
               if ((c =? 133) || (c =? 160))%N then lstrip_bytes r1 else l
           | 225%N, 154%N :: 128%N :: r2 => lstrip_bytes r2
           | 226%N, 128%N :: c :: r2 =>
               if is_general_punct_space c then lstrip_bytes r2 else l
           | 226%N, 129%N :: 159%N :: r2 => lstrip_bytes r2
           | 227%N, 128%N :: 128%N :: r2 => lstrip_bytes r2
           | _, _ => l
           end
  end.

(** The same white space read from the end of the string: the argument is the
    reversed byte list, so every encoding appears last byte first. *)
Fixpoint rstrip_rev_bytes (l : list N) : list N :=
  match l with
  | [] => []
  | b :: r =>
      if is_ascii_space b then rstrip_rev_bytes r
      else match r with
           | 194%N :: r1 =>
               if ((b =? 133) || (b =? 160))%N then rstrip_rev_bytes r1 else l
           | 154%N :: 225%N :: r2 =>
               if (b =? 128)%N then rstrip_rev_bytes r2 else l
           | 128%N :: 226%N :: r2 =>
               if is_general_punct_space b then rstrip_rev_bytes r2 else l
           | 129%N :: 226%N :: r2 =>
               if (b =? 159)%N then rstrip_rev_bytes r2 else l
           | 128%N :: 227%N :: r2 =>
               if (b =? 128)%N then rstrip_rev_bytes r2 else l
           | _ => l
           end
  end.

(** [s.strip()] *)
Definition strip (s : string) : string :=
  str_of_bytes
    (reverse (rstrip_rev_bytes (reverse (lstrip_bytes (bytes_of_str s))))).

(** [sep.join(l)] *)
Fixpoint join (sep : string) (l : list string) : string :=
  match l with
  | [] => ""
  | [x] => x
  | x :: l' => x +:+ sep +:+ join sep l'
  end.

(** [p in s] for two strings: [p] occurs in [s] as a contiguous run. *)
Fixpoint str_contains (s p : string) : bool :=
  String.prefix p s ||
  match s with
  | EmptyString => false
  | String _ s' => str_contains s' p
  end.

(** [sorted(l)] for a list of strings. *)
Definition sorted (l : list string) : list string := merge_sort String.le l.

(** ** Containers *)

(** The distinct elements of a list in first-seen order: what
    [DataFrame.drop_duplicates()] keeps of the rows, and the model of a
    [set] built from a list. *)
Definition drop_duplicates {A : Type} `{EqDecision A} (l : list A) : list A :=
  foldl (λ acc x, if decide (x ∈ acc) then acc else acc ++ [x]) [] l.

(** [a.union(b)] on frozensets. *)
Definition union {A : Type} `{EqDecision A} (a b : list A) : list A :=
  drop_duplicates (a ++ b).

(** [dict(pairs)]: a later pair overwrites an earlier one with the same key. *)
Definition dict {K V : Type} `{Countable K} (pairs : list (K * V)) : gmap K V :=
  foldl (λ m kv, <[kv.1 := kv.2]> m) ∅ pairs.

(** ** The input table *)

(** One row of the sheet, read through its first three columns: a numeric
    transaction id, an item name that is text, and an order number kept as
    the text [str] gives for it.  A missing cell (NaN) is [None]. *)
Record df_row : Type := {
  id_column : option Z;
  item_column : option string;
  bestellnummer_column : string
}.

(** ** 2) item -> order number *)

(** [df[[item_column, bestellnummer_column]]]: the pairs (item, order number)
    of the rows, in input order. *)
Definition item_pairs (df : list df_row) : list (option string * string) :=
  (λ r, (item_column r, bestellnummer_column r)) <$> df.

Definition unique_items (df : list df_row) : list (option string * string) :=
  drop_duplicates (item_pairs df).

Definition item_bestell_map (df : list df_row) : gmap (option string) string :=
  dict (unique_items df).

(** ** 3) transactions *)

(** The keys of [df.groupby(id_column)]: the distinct ids, ascending; rows
    without an id belong to no group. *)
Definition group_keys (df : list df_row) : list Z :=
  merge_sort Z.le (drop_duplicates (omap id_column df)).

(** The lambda applied to each group: [[str(item).strip() for item in x if
    pd.notna(item)]]. *)
Definition group_items (df : list df_row) (k : Z) : list string :=
  omap (λ r, strip <$> item_column r)
       (filter (λ r, id_column r = Some k) df).

Definition grouped (df : list df_row) : list (Z * list string) :=
  (λ k, (k, group_items df k)) <$> group_keys df.

Definition transactions (df : list df_row) : result (list (list string)) :=
  let ts := snd <$> grouped df in
  match ts with
  | [] => Raise ValueError
  | _ => Ok ts
  end.

(** ** 4) TransactionEncoder

    Modelled from the spec: [TransactionEncoder] is the class of mlxtend
    imported on line 5; its code is not among the sources.  The definitions
    follow section 4.2 of the specification. *)

(** A boolean data frame: column labels and rows. *)
Record bool_frame : Type := {
  columns_ : list string;
  te_ary : list (list bool)
}.

(** Modelled from the spec: "the sorted universe of distinct items", the
    columns "lexicographic by item name". *)
Definition te_fit (X : list (list string)) : list string :=
  sorted (drop_duplicates (concat X)).

(** Modelled from the spec: "a boolean matrix (transactions × items)
    indicating membership". *)
Definition te_transform (cols : list string) (X : list (list string))
  : list (list bool) :=
  (λ t, (λ c, bool_decide (c ∈ t)) <$> cols) <$> X.

(** [pd.DataFrame(te.fit(X).transform(X), columns=te.columns_)] *)
Definition df_transformed (X : list (list string)) : bool_frame :=
  let cols := te_fit X in
  {| columns_ := cols; te_ary := te_transform cols X |}.

(** ** 5) Frequent itemsets and association rules *)

(** [+inf] besides the rationals, for the conviction of a rule that never
    fails. *)
Inductive num : Type :=
  | Finite (q : Q)
  | Infinity.

(** A row of [frequent_itemsets]. *)
Record itemset_row : Type := {
  itemset_support : Q;
  itemsets : list string
}.

(** A row of [rules] as [association_rules] returns it. *)
Record rule : Type := {
  antecedents : list string;
  consequents : list string;
  antecedent_support : Q;
  consequent_support : Q;
  support : Q;
  confidence : Q;
  lift : Q;
  leverage : Q;
  conviction : num;
  zhangs_metric : Q
}.

(** *** The miner

    Modelled from the spec: [apriori] is the function of mlxtend imported on
    line 4; its code is not among the sources.  The definitions below follow
    section 4.3 of the specification: candidates are lists of column indices
    in ascending order. *)

(** Modelled from the spec: the cell of a matrix row at column [j]. *)
Definition row_has (r : list bool) (j : nat) : bool := default false (r !! j).

(** Modelled from the spec: all member columns of candidate [c] are true. *)
Definition covers (r : list bool) (c : list nat) : bool := forallb (row_has r) c.

(** Modelled from the spec: "counting matrix rows where all member columns
    are true". *)
Definition support_count (X : list (list bool)) (c : list nat) : nat :=
  length (filter (λ r, covers r c) X).

(** Modelled from the spec: "divide by total transaction count". *)
Definition support_of (X : list (list bool)) (c : list nat) : Q :=
  (inject_Z (Z.of_nat (support_count X c)) / inject_Z (Z.of_nat (length X)))%Q.

(** Modelled from the spec: support ≥ min_support. *)
Definition is_frequent (X : list (list bool)) (min_support : Q) (c : list nat)
  : bool :=
  Qle_bool min_support (support_of X c).

(** Modelled from the spec: "start with all single items whose support ≥
    min_support". *)
Definition frequent_1 (X : list (list bool)) (m : nat) (min_support : Q)
  : list (list nat) :=
  filter (λ c, is_frequent X min_support c) ((λ j, [j]) <$> seq 0 m).

(** Modelled from the spec: the join step, on two frequent k-itemsets "that
    share a (k−1)-item prefix"; the smaller last item comes first. *)
Definition join_pair (a b : list nat) : option (list nat) :=
  match last a, last b with
  | Some x, Some y =>
      if decide (take (pred (length a)) a = take (pred (length b)) b ∧ (x < y)%nat)
      then Some (a ++ [y])
      else None
  | _, _ => None
  end.

(** Modelled from the spec: the candidates of the next level, from every
    pair of frequent itemsets of this one. *)
Definition join_step (L : list (list nat)) : list (list nat) :=
  a ← L; omap (join_pair a) L.

(** Modelled from the spec: "prune any candidate containing a non-frequent
    k-subset". *)
Definition prune_step (L : list (list nat)) (cands : list (list nat))
  : list (list nat) :=
  filter (λ c, Forall (λ i, delete i c ∈ L) (seq 0 (length c))) cands.

(** Modelled from the spec: one level of the loop: join, prune, count. *)
Definition next_level (X : list (list bool)) (min_support : Q)
  (L : list (list nat)) : list (list nat) :=
  filter (λ c, is_frequent X min_support c) (prune_step L (join_step L)).

(** Modelled from the spec: the level-wise loop, which ends "when no
    candidates survive pruning or no candidates meet the threshold".  A level
    past the number of columns has no candidate, so [fuel] is the number of
    columns. *)
Fixpoint apriori_levels (X : list (list bool)) (min_support : Q) (fuel : nat)
  (L : list (list nat)) : list (list nat) :=
  match fuel with
  | O => []
  | S fuel' =>
      match L with
      | [] => []
      | _ => L ++ apriori_levels X min_support fuel' (next_level X min_support L)
      end
  end.

(** Modelled from the spec: [apriori(df, min_support, use_colnames=True)]. *)
Definition apriori (df : bool_frame) (min_support : Q) : list itemset_row :=
  let X := te_ary df in
  let cols := columns_ df in
  (λ c, {| itemset_support := support_of X c;
           itemsets := (λ j, default "" (cols !! j)) <$> c |})
  <$> apriori_levels X min_support (length cols)
        (frequent_1 X (length cols) min_support).

(** *** The rule generator

    Modelled from the spec: [association_rules] is the function of mlxtend
    imported on line 4; the definitions follow section 4.4 of the
    specification. *)

(** Modelled from the spec: every way to split an itemset in two. *)
Fixpoint splits {A : Type} (l : list A) : list (list A * list A) :=
  match l with
  | [] => [([], [])]
  | x :: l' => s ← splits l'; [(x :: s.1, s.2); (s.1, x :: s.2)]
  end.

(** Modelled from the spec: "all non-empty, non-full proper subsets A
    (antecedent) with consequent = itemset − A". *)
Definition proper_splits {A : Type} (l : list A) : list (list A * list A) :=
  filter (λ s, s.1 ≠ [] ∧ s.2 ≠ []) (splits l).

(** Two frozensets are equal when they have the same members. *)
Definition same_items (a b : list string) : Prop := a ⊆ b ∧ b ⊆ a.

(** Modelled from the spec: the support of a set, read from the table of
    frequent itemsets. *)
Definition support_lookup (freq : list itemset_row) (s : list string)
  : result Q :=
  match list_find (λ e, same_items (itemsets e) s) freq with
  | Some (_, e) => Ok (itemset_support e)
  | None => Raise KeyError
  end.

(** The greater and the lesser of two rationals. *)
Definition qmax (a b : Q) : Q := if Qle_bool a b then b else a.

Definition qmin (a b : Q) : Q := if Qle_bool a b then a else b.

(** Modelled from the spec: "conviction = (1 − support(consequent)) / (1 −
    confidence), defined as infinite when confidence = 1". *)
Definition conviction_of (sC conf : Q) : num :=
  if Qeq_bool conf 1 then Infinity else Finite ((1 - sC) / (1 - conf))%Q.

(** Modelled from the spec: Zhang's metric, "clamped to [−1, 1] and 0 when
    denominator is 0". *)
Definition zhangs_metric_of (sA sC sAC conf : Q) : Q :=
  let denominator := qmax (sA * (1 - sC))%Q (sC * (sA - sAC))%Q in
  if Qeq_bool denominator 0 then 0%Q
  else qmax (-1)%Q (qmin 1%Q ((conf - sC) / denominator)%Q).

(** Modelled from the spec: the rule antecedent [A] -> consequent [C] of the
    frequent itemset [I], with support = support(I), confidence =
    support(I) / support(A), lift = confidence / support(C) and leverage =
    support(I) − support(A)·support(C). *)
Definition make_rule (freq : list itemset_row) (I : itemset_row)
  (A C : list string) : result rule :=
  do sA <~ support_lookup freq A;
  do sC <~ support_lookup freq C;
  let sAC := itemset_support I in
  let conf := (sAC / sA)%Q in
  Ok {| antecedents := A;
        consequents := C;
        antecedent_support := sA;
        consequent_support := sC;
        support := sAC;
        confidence := conf;
        lift := (conf / sC)%Q;
        leverage := (sAC - sA * sC)%Q;
        conviction := conviction_of sC conf;
        zhangs_metric := zhangs_metric_of sA sC sAC conf |}.

(** Modelled from the spec: "retain only rules with confidence ≥
    min_confidence". *)
Definition rules_of_itemset (freq : list itemset_row) (min_threshold : Q)
  (I : itemset_row) : result (list rule) :=
  do rs <~ rmapM (λ s, make_rule freq I s.1 s.2) (proper_splits (itemsets I));
  Ok (filter (λ r, Qle_bool min_threshold (confidence r)) rs).

(** Modelled from the spec: [association_rules(frequent_itemsets,
    metric="confidence", min_threshold)], "for every frequent itemset of size
    ≥ 2". *)
Definition association_rules (freq : list itemset_row) (min_threshold : Q)
  : result (list rule) :=
  do rss <~ rmapM (rules_of_itemset freq min_threshold)
                  (filter (λ I, (2 ≤ length (itemsets I))%nat) freq);
  Ok (concat rss).

(** ** 6) combination_count *)

(** [df[name]]: a column that does not exist raises [KeyError]. *)
Definition column_index (cols : list string) (name : string) : result nat :=
  match list_find (λ c, c = name) cols with
  | Some (i, _) => Ok i
  | None => Raise KeyError
  end.

(** [df[names].all(axis=1)] *)
Definition all_axis1 (df : bool_frame) (names : list string)
  : result (list bool) :=
  do idx <~ rmapM (column_index (columns_ df)) names;
  Ok ((λ r, forallb (row_has r) idx) <$> te_ary df).

Definition combination_count_of (df : bool_frame) (row : rule) : result nat :=
  do a <~ all_axis1 df (antecedents row);
  do c <~ all_axis1 df (consequents row);
  Ok (length (filter (λ b : bool, b) (zip_with andb a c))).

(** ** 7) Mat_combination *)

(** The list [bestellnummern] when it is joined: the order numbers found
    for the items of the rule, then [sorted(set(bestellnummern))]. *)
Definition bestellnummern (m : gmap (option string) string) (row : rule)
  : list string :=
  let items_in_rule := union (antecedents row) (consequents row) in
  sorted (drop_duplicates (omap (λ item, m !! Some item) items_in_rule)).

Definition get_mat_combination (m : gmap (option string) string) (row : rule)
  : string :=
  join "-" (bestellnummern m row).

(** ** 8) Mat_combination_id *)

(** *** hashlib.sha256

    [hashlib] is Python's standard library; the definitions follow FIPS
    180-4.  Words are integers below 2^32. *)

Definition w32 (x : Z) : Z := x mod 2 ^ 32.

Definition rotr (n x : Z) : Z :=
  Z.lor (Z.shiftr x n) (w32 (Z.shiftl x (32 - n))).

Definition not32 (x : Z) : Z := Z.lxor x (2 ^ 32 - 1).

Definition xor3 (x y z : Z) : Z := Z.lxor (Z.lxor x y) z.

Definition Ch (x y z : Z) : Z := Z.lxor (Z.land x y) (Z.land (not32 x) z).

Definition Maj (x y z : Z) : Z :=
  xor3 (Z.land x y) (Z.land x z) (Z.land y z).

Definition big_sigma0 (x : Z) : Z := xor3 (rotr 2 x) (rotr 13 x) (rotr 22 x).
Definition big_sigma1 (x : Z) : Z := xor3 (rotr 6 x) (rotr 11 x) (rotr 25 x).
Definition small_sigma0 (x : Z) : Z :=
  xor3 (rotr 7 x) (rotr 18 x) (Z.shiftr x 3).
Definition small_sigma1 (x : Z) : Z :=
  xor3 (rotr 17 x) (rotr 19 x) (Z.shiftr x 10).

Definition is_prime (n : Z) : bool :=
  forallb (λ d, negb (n mod Z.of_nat d =? 0)) (seq 2 (Z.to_nat n - 2)).

(** The first sixty-four primes, 2 .. 311. *)
Definition sha_primes : list Z :=
  Eval vm_compute in filter (λ n, is_prime n) (Z.of_nat <$> seq 2 310).

(** The largest [r] below 2^36 with [r^3 ≤ n], one bit at a time. *)
Definition icbrt (n : Z) : Z :=
  foldl (λ r i, let r' := r + 2 ^ Z.of_nat i in if r' ^ 3 <=? n then r' else r)
        0 (reverse (seq 0 36)).

(** "The first thirty-two bits of the fractional parts of the cube roots of
    the first sixty-four prime numbers." *)
Definition sha_K : list Z :=
  Eval vm_compute in (λ p, w32 (icbrt (p * 2 ^ 96))) <$> sha_primes.

(** "The first thirty-two bits of the fractional parts of the square roots
    of the first eight prime numbers." *)
Definition sha_H0 : list Z :=
  Eval vm_compute in (λ p, w32 (Z.sqrt (p * 2 ^ 64))) <$> take 8 sha_primes.

(** The value of a list of bytes read as one big-endian number. *)
Definition be_value (l : list Z) : Z := foldl (λ acc b, acc * 256 + b) 0 l.

(** The [k] low bytes of [x], most significant first. *)
Fixpoint be_bytes (k : nat) (x : Z) : list Z :=
  match k with
  | O => []
  | S k' => (x / 256 ^ Z.of_nat k') mod 256 :: be_bytes k' x
  end.

Definition sha_pad (msg : list Z) : list Z :=
  let len := Z.of_nat (length msg) in
  msg ++ [128] ++ replicate (Z.to_nat ((55 - len) mod 64)) 0
      ++ be_bytes 8 (8 * len).

Fixpoint chunks {A : Type} (fuel n : nat) (l : list A) : list (list A) :=
  match fuel with
  | O => []
  | S fuel' =>
      match l with
      | [] => []
      | _ => take n l :: chunks fuel' n (drop n l)
      end
  end.

(** The message schedule: [w] holds W_0 .. W_(t-1) and grows by [n] words. *)
Fixpoint sha_schedule (n : nat) (w : list Z) : list Z :=
  match n with
  | O => w
  | S n' =>
      let t := length w in
      let at_ (k : nat) := default 0 (w !! (t - k)%nat) in
      sha_schedule n'
        (w ++ [w32 (small_sigma1 (at_ 2%nat) + at_ 7%nat
                    + small_sigma0 (at_ 15%nat) + at_ 16%nat)])
  end.

Definition sha_round (s : list Z) (kw : Z * Z) : list Z :=
  match s with
  | [a; b; c; d; e; f; g; h] =>
      let t1 := h + big_sigma1 e + Ch e f g + kw.1 + kw.2 in
      let t2 := big_sigma0 a + Maj a b c in
      [w32 (t1 + t2); a; b; c; w32 (d + t1); e; f; g]
  | _ => s
  end.

Definition sha_block (h : list Z) (block : list Z) : list Z :=
  let w := sha_schedule 48 (be_value <$> chunks 16 4 block) in
  zip_with (λ x y, w32 (x + y)) h (foldl sha_round h (zip sha_K w)).

(** [hashlib.sha256(data).digest()], as thirty-two bytes. *)
Definition sha256 (data : list Z) : list Z :=
  let padded := sha_pad data in
  w ← foldl sha_block sha_H0 (chunks (length padded) 64 padded); be_bytes 4 w.

Definition hex_digit (d : Z) : Ascii.ascii :=
  Ascii.ascii_of_N (Z.to_N (if d <? 10 then 48 + d else 87 + d)).

(** [.hexdigest()]: two lower-case hexadecimal digits per byte. *)
Fixpoint hexdigest (digest : list Z) : string :=
  match digest with
  | [] => ""
  | b :: r => String (hex_digit (b / 16)) (String (hex_digit (b mod 16)) (hexdigest r))
  end.

Definition hex_value (c : Ascii.ascii) : option Z :=
  let n := Z.of_N (Ascii.N_of_ascii c) in
  if (48 <=? n) && (n <=? 57) then Some (n - 48)
  else if (97 <=? n) && (n <=? 102) then Some (n - 87)
  else if (65 <=? n) && (n <=? 70) then Some (n - 55)
  else None.

Fixpoint int_base16_from (acc : Z) (s : string) : result Z :=
  match s with
  | EmptyString => Ok acc
  | String c s' =>
      match hex_value c with
      | Some d => int_base16_from (acc * 16 + d) s'
      | None => Raise ValueError
      end
  end.

(** [int(s, 16)] on a string of hexadecimal digits; anything else raises. *)
Definition int_base16 (s : string) : result Z :=
  match s with
  | EmptyString => Raise ValueError
  | _ => int_base16_from 0 s
  end.

(** *** str, zfill and the substitution *)

Definition digit_char (d : Z) : Ascii.ascii := Ascii.ascii_of_N (Z.to_N (48 + d)).

Fixpoint decimal_digits (fuel : nat) (n : Z) (acc : string) : string :=
  let acc' := String (digit_char (n mod 10)) acc in
  match fuel with
  | O => acc'
  | S fuel' => if n <? 10 then acc' else decimal_digits fuel' (n / 10) acc'
  end.

(** [str(n)] for an integer. *)
Definition str_of_int (n : Z) : string :=
  if n <? 0 then String "-"%char (decimal_digits (Z.to_nat (Z.log2 (- n))) (- n) "")
  else decimal_digits (Z.to_nat (Z.log2 n)) n "".

Fixpoint str_repeat (c : Ascii.ascii) (n : nat) : string :=
  match n with
  | O => ""
  | S n' => String c (str_repeat c n')
  end.

Fixpoint str_drop (n : nat) (s : string) : string :=
  match n, s with
  | S n', String _ s' => str_drop n' s'
  | _, _ => s
  end.

(** [s.zfill(width)]: zeros go after a leading sign. *)
Definition zfill (width : nat) (s : string) : string :=
  let fill := str_repeat "0"%char (width - String.length s) in
  match s with
  | String c s' =>
      if bool_decide (c = "+"%char ∨ c = "-"%char)
      then String c (fill +:+ s')
      else fill +:+ s
  | EmptyString => fill
  end.

(** The length of the match of [^(0+)], 0 when there is none. *)
Fixpoint leading_zeros (s : string) : nat :=
  match s with
  | String c s' => if bool_decide (c = "0"%char) then S (leading_zeros s') else O
  | EmptyString => O
  end.

(** [re.sub(r'^(0+)', lambda m: '9' * len(m.group(1)), s)] *)
Definition sub_leading_zeros (s : string) : string :=
  let n := leading_zeros s in
  str_repeat "9"%char n +:+ str_drop n s.

Definition encode_utf8 (s : string) : list Z := Z.of_N <$> bytes_of_str s.

Definition create_unique_8digit_id (combination_string : string)
  : result string :=
  let sha_value := hexdigest (sha256 (encode_utf8 combination_string)) in
  do hash_int <~ int_base16 sha_value;
  let mod_value := hash_int mod 10 ^ 8 in
  let mod_str := zfill 8 (str_of_int mod_value) in
  Ok (sub_leading_zeros mod_str).

(** ** 9), 10) The annotated rule table *)

(** A row of [rules] after steps 6 to 10.  The source overwrites the columns
    [antecedents] and [consequents] with their rendered strings; the record
    keeps the rule and holds the strings in two fields of their own, which
    are the ones steps 11 and 12 read. *)
Record annotated_rule : Type := {
  mined : rule;
  combination_count : Z;
  Mat_combination : string;
  Mat_combination_id : string;
  different_items : nat;
  antecedents_str : string;
  consequents_str : string
}.

(** [', '.join(sorted(list(x)))] *)
Definition render (x : list string) : string := join ", " (sorted x).

Definition annotate (df : bool_frame) (m : gmap (option string) string)
  (row : rule) : result annotated_rule :=
  do count <~ combination_count_of df row;
  let mat := get_mat_combination m row in
  do mat_id <~ create_unique_8digit_id mat;
  Ok {| mined := row;
        combination_count := Z.of_nat count;
        Mat_combination := mat;
        Mat_combination_id := mat_id;
        different_items := length (union (antecedents row) (consequents row));
        antecedents_str := render (antecedents row);
        consequents_str := render (consequents row) |}.

(** ** 11) Export *)

Inductive cell : Type :=
  | CStr (s : string)
  | CNum (x : num)
  | CInt (n : Z).

(** A data frame of cells: column labels and rows. *)
Record frame : Type := {
  frame_columns : list string;
  frame_rows : list (list cell)
}.

(** The columns of [rules] when it is exported: those of
    [association_rules], then the four added by steps 6 to 9. *)
Definition rules_columns : list string :=
  ["antecedents"; "consequents"; "antecedent support"; "consequent support";
   "support"; "confidence"; "lift"; "leverage"; "conviction"; "zhangs_metric";
   "combination_count"; "Mat_combination"; "Mat_combination_id";
   "different items"].

Definition rules_cells (r : annotated_rule) : list cell :=
  [CStr (antecedents_str r); CStr (consequents_str r);
   CNum (Finite (antecedent_support (mined r)));
   CNum (Finite (consequent_support (mined r)));
   CNum (Finite (support (mined r))); CNum (Finite (confidence (mined r)));
   CNum (Finite (lift (mined r))); CNum (Finite (leverage (mined r)));
   CNum (conviction (mined r)); CNum (Finite (zhangs_metric (mined r)));
   CInt (combination_count r); CStr (Mat_combination r);
   CStr (Mat_combination_id r); CInt (Z.of_nat (different_items r))].

Definition rules_frame (rules : list annotated_rule) : frame :=
  {| frame_columns := rules_columns; frame_rows := rules_cells <$> rules |}.

(** [df[names]]: the named columns in the order asked for; a label that is
    not a column raises [KeyError]. *)
Definition frame_select (f : frame) (names : list string) : result frame :=
  do idx <~ rmapM (column_index (frame_columns f)) names;
  Ok {| frame_columns := names;
        frame_rows := (λ r, omap (λ i, r !! i) idx) <$> frame_rows f |}.

Definition export_columns : list string :=
  ["antecedents"; "consequents"; "support"; "confidence"; "lift"; "leverage";
   "conviction"; "zhangs_metric"; "combination_count"; "Mat_combination";
   "Mat_combination_id"; "different items"].

Definition rules_export (rules : list annotated_rule) : result frame :=
  frame_select (rules_frame rules) export_columns.

(** ** 12) The link graph *)

(** [nx.DiGraph]: nodes in insertion order, one attribute pair (weight,
    combination_count) per edge. *)
Record digraph : Type := {
  nodes : list string;
  edges : list ((string * string) * (Q * Z))
}.

Definition add_node (ns : list string) (n : string) : list string :=
  if decide (n ∈ ns) then ns else ns ++ [n].

Fixpoint set_edge (es : list ((string * string) * (Q * Z)))
  (uv : string * string) (attrs : Q * Z) : list ((string * string) * (Q * Z)) :=
  match es with
  | [] => [(uv, attrs)]
  | e :: es' =>
      if decide (e.1 = uv) then (uv, attrs) :: es'
      else e :: set_edge es' uv attrs
  end.

(** [G.add_edge(u, v, weight=w, combination_count=c)] *)
Definition add_edge (G : digraph) (u v : string) (w : Q) (c : Z) : digraph :=
  {| nodes := add_node (add_node (nodes G) u) v;
     edges := set_edge (edges G) (u, v) (w, c) |}.

Definition build_graph (rules : list annotated_rule) : digraph :=
  foldl (λ G row, add_edge G (antecedents_str row) (consequents_str row)
                    (confidence (mined row)) (combination_count row))
        {| nodes := []; edges := [] |} rules.

(** The summand of a rule for [node]; [in] is here between two strings. *)
Definition node_count (node : string) (row : annotated_rule) : Z :=
  if str_contains (antecedents_str row) node
     || str_contains (consequents_str row) node
  then combination_count row
  else 0.

Definition node_sizes (rules : list annotated_rule) (G : digraph)
  : list (string * Z) :=
  (λ node, (node, foldr Z.add 0 (node_count node <$> rules))) <$> nodes G.

Definition min_size : Z := 300.
Definition max_size : Z := 3000.

(** [a / b] on numbers: a zero divisor raises. *)
Definition py_div (a b : Q) : result Q :=
  if Qeq_bool b 0 then Raise ZeroDivisionError else Ok (a / b)%Q.

Definition scaled_sizes (node_sizes : list (string * Z))
  : result (list (string * Q)) :=
  let counts := snd <$> node_sizes in
  match counts with
  | c :: cs =>
      let min_count := foldl Z.min c cs in
      let max_count := foldl Z.max c cs in
      if max_count =? min_count
      then
        do mid <~ py_div (inject_Z (min_size + max_size)) 2;
        Ok ((λ p, (p.1, mid)) <$> node_sizes)
      else
        rmapM (λ p,
               do q <~ py_div (inject_Z (p.2 - min_count))
                              (inject_Z (max_count - min_count));
               Ok (p.1, (inject_Z min_size
                         + q * inject_Z (max_size - min_size))%Q))
              node_sizes
  | [] => Ok ((λ p, (p.1, inject_Z min_size)) <$> node_sizes)
  end.

(** ** The script *)

Definition min_support : Q := 1 # 1000.
Definition min_threshold : Q := 15 # 100.

Record outputs : Type := {
  out_rules : list annotated_rule;
  out_export : frame;
  out_graph : digraph;
  out_node_sizes : list (string * Z);
  out_scaled_sizes : list (string * Q)
}.

(** [rules[column] = rules.apply(f, axis=1)], the form of step 6 (line 62):
    on a frame without rows [DataFrame.apply] returns a frame and not a
    column, and the assignment to one column raises ValueError; on a frame
    with rows every row gets its value. *)
Definition assign_apply_axis1 {A B : Type} (f : A → result B) (rows : list A)
  : result (list B) :=
  match rows with
  | [] => Raise ValueError
  | _ => rmapM f rows
  end.

(** The rule table of a run, steps 2 to 10.  Step 6 is the first to add a
    column with [rules.apply(..., axis=1)], so a run in which no rule is
    retained stops there with ValueError. *)
Definition rules_table (df : list df_row) : result (list annotated_rule) :=
  let m := item_bestell_map df in
  do ts <~ transactions df;
  let dft := df_transformed ts in
  let frequent_itemsets := apriori dft min_support in
  do rules <~ association_rules frequent_itemsets min_threshold;
  assign_apply_axis1 (annotate dft m) rules.

Definition script (df : list df_row) : result outputs :=
  do rules <~ rules_table df;
  do export <~ rules_export rules;
  let G := build_graph rules in
  let sizes := node_sizes rules G in
  do scaled <~ scaled_sizes sizes;
  Ok {| out_rules := rules;
        out_export := export;
        out_graph := G;
        out_node_sizes := sizes;
        out_scaled_sizes := scaled |}.

(** * Vocabulary of the properties

    Reference definitions the statements below compare the script with, and
    the inputs of the examples. *)

(** The order number of the first row that carries [item]. *)
Definition first_occurrence_code (df : list df_row) (item : option string)
  : option string :=
  (λ p, bestellnummer_column p.2) <$> list_find (λ r, item_column r = item) df.

(** [latest_first_seen l k c i]: position [i] is the first occurrence of the
    pair [(k, c)] in [l], and every other pair with key [k] has occurred
    before it. *)
Definition latest_first_seen {K V : Type} (l : list (K * V)) (k : K) (c : V)
  (i : nat) : Prop :=
  l !! i = Some (k, c) ∧
  (∀ j, (j < i)%nat → l !! j ≠ Some (k, c)) ∧
  (∀ j c', l !! j = Some (k, c') → c' ≠ c →
           ∃ j', (j' < i)%nat ∧ l !! j' = Some (k, c')).

(** An item that occurs with two order numbers. *)
Definition df_two_codes : list df_row :=
  [ {| id_column := Some 1; item_column := Some "A"; bestellnummer_column := "X1" |};
    {| id_column := Some 2; item_column := Some "A"; bestellnummer_column := "X2" |} ].

(** A transaction (id 2) whose only row has no item name. *)
Definition df_missing_item : list df_row :=
  [ {| id_column := Some 1; item_column := Some "A"; bestellnummer_column := "X1" |};
    {| id_column := Some 1; item_column := Some "B"; bestellnummer_column := "X2" |};
    {| id_column := Some 2; item_column := None; bestellnummer_column := "X3" |} ].

(** Strictly before, in the order of [sorted]. *)
Definition str_lt (a b : string) : Prop := String.le a b ∧ a ≠ b.

(** The [k] low decimal digits of [n], most significant first. *)
Fixpoint dec (k : nat) (n : Z) : string :=
  match k with
  | O => ""
  | S k' => String (digit_char ((n / 10 ^ Z.of_nat k') mod 10)) (dec k' n)
  end.

(** Two baskets; the item of the last row is written with a leading
    space. *)
Definition df_example : list df_row :=
  [ {| id_column := Some 1; item_column := Some "A"; bestellnummer_column := "x1" |};
    {| id_column := Some 1; item_column := Some "B"; bestellnummer_column := "x2" |};
    {| id_column := Some 1; item_column := Some "C"; bestellnummer_column := "x3" |};
    {| id_column := Some 2; item_column := Some "A"; bestellnummer_column := "x1" |};
    {| id_column := Some 2; item_column := Some " B"; bestellnummer_column := "x2" |} ].

(** Two rows of one transaction; the item of the second is written with a
    leading blank only. *)
Definition df_untrimmed : list df_row :=
  [ {| id_column := Some 1; item_column := Some "A";
       bestellnummer_column := "x1" |};
    {| id_column := Some 1; item_column := Some " B";
       bestellnummer_column := "x2" |} ].

(** The column labels as the specification lists them. *)
Definition spec_export_columns : list string :=
  ["antecedents"; "consequents"; "support"; "confidence"; "lift"; "leverage";
   "conviction"; "zhangs_metric"; "combination_count"; "Mat_combination";
   "Mat_combination_id"; "different_items"].

(** [p] occurs in [s] as a contiguous run of characters. *)
Definition occurs_in (p s : string) : Prop := ∃ u v, s = u +:+ p +:+ v.

(** The sum of combination_count over the rules that satisfy [P]. *)
Definition count_sum (P : annotated_rule → Prop) `{∀ r, Decision (P r)}
  (rules : list annotated_rule) : Z :=
  foldr Z.add 0 (combination_count <$> filter P rules).

(** The linear map of the script: [min_size + (c - lo) / (hi - lo) *
    (max_size - min_size)]. *)
Definition linear_size (lo hi c : Z) : Q :=
  (inject_Z min_size
   + inject_Z (c - lo) / inject_Z (hi - lo) * inject_Z (max_size - min_size))%Q.

(** A candidate of level [k] over [m] columns: [k] column indices below [m]
    in strictly ascending order. *)
Definition canonical (m k : nat) (c : list nat) : Prop :=
  StronglySorted lt c ∧ Forall (λ j, (j < m)%nat) c ∧ length c = k.

(** [L] is the level [k] of the miner: it holds exactly the frequent
    candidates of [k] columns. *)
Definition level_ok (X : list (list bool)) (m : nat) (ms : Q) (k : nat)
  (L : list (list nat)) : Prop :=
  ∀ c, c ∈ L ↔ canonical m k c ∧ is_frequent X ms c.

(** The support of an itemset, counted on the transactions themselves: the
    fraction of transactions that contain all of its items. *)
Definition true_support (T : list (list string)) (I : list string) : Q :=
  (inject_Z (Z.of_nat (length (filter (λ t, I ⊆ t) T)))
   / inject_Z (Z.of_nat (length T)))%Q.

(** The labels of a list of column indices. *)
Definition labels (cols : list string) (c : list nat) : list string :=
  (λ j, default "" (cols !! j)) <$> c.

(** The transactions of the example in section 8 of the specification. *)
Definition T_example : list (list string) :=
  [["A"; "B"]; ["A"; "B"]; ["A"; "C"]].

(** The rule B -> A of [T_example], and a row of a rule table for it. *)
Definition rule_example : rule :=
  {| antecedents := ["B"];
     consequents := ["A"];
     antecedent_support := 2 # 3;
     consequent_support := 1;
     support := 2 # 3;
     confidence := 1;
     lift := 1;
     leverage := 0;
     conviction := Infinity;
     zhangs_metric := 0 |}.

Definition annotated_example : annotated_rule :=
  {| mined := rule_example;
     combination_count := 2;
     Mat_combination := "x1-x2";
     Mat_combination_id := "91724022";
     different_items := 2;
     antecedents_str := "B";
     consequents_str := "A" |}.

(** The pair of node labels of the edge a rule adds, and its attributes. *)
Definition edge_key (r : annotated_rule) : string * string :=
  (antecedents_str r, consequents_str r).

Definition edge_attrs (r : annotated_rule) : Q * Z :=
  (confidence (mined r), combination_count r).

(** * Properties *)

(** ** Containers *)

Section containers.
Context {A : Type} `{EqDecision A}.

Lemma drop_duplicates_snoc (l : list A) (x : A) :
  drop_duplicates (l ++ [x]) =
  if decide (x ∈ drop_duplicates l) then drop_duplicates l
  else drop_duplicates l ++ [x].
Proof. unfold drop_duplicates. by rewrite foldl_app. Qed.

Lemma elem_of_drop_duplicates (l : list A) (x : A) :
  x ∈ drop_duplicates l ↔ x ∈ l.
Proof.
  induction l as [|y l IH] using rev_ind; [done|].
  rewrite drop_duplicates_snoc.
  case_decide as Hin; rewrite ?elem_of_app, ?list_elem_of_singleton, IH;
    [|tauto].
  split; [by left|]. intros [?| ->]; [done|]. by apply IH.
Qed.

Lemma NoDup_drop_duplicates (l : list A) : NoDup (drop_duplicates l).
Proof.
  induction l as [|y l IH] using rev_ind; [constructor|].
  rewrite drop_duplicates_snoc. case_decide; [done|].
  apply NoDup_app. split_and!; [done| |apply NoDup_singleton].
  intros z Hz ->%list_elem_of_singleton. done.
Qed.

Lemma drop_duplicates_NoDup_id (l : list A) : NoDup l → drop_duplicates l = l.
Proof.
  induction l as [|y l IH] using rev_ind; [done|].
  intros [Hl [Hy _]]%NoDup_app. rewrite drop_duplicates_snoc, IH by done.
  case_decide as Hin; [|done]. exfalso. apply (Hy y); [done|by left].
Qed.

Lemma drop_duplicates_Permutation (l1 l2 : list A) :
  l1 ≡ₚ l2 → drop_duplicates l1 ≡ₚ drop_duplicates l2.
Proof.
  intros HP. apply NoDup_Permutation; [apply NoDup_drop_duplicates..|].
  intros x. rewrite !elem_of_drop_duplicates. by rewrite HP.
Qed.

Lemma elem_of_union (a b : list A) (x : A) : x ∈ union a b ↔ x ∈ a ∨ x ∈ b.
Proof. unfold union. by rewrite elem_of_drop_duplicates, elem_of_app. Qed.

End containers.

Lemma dict_snoc {K V : Type} `{Countable K} (l : list (K * V)) (k : K) (v : V) :
  dict (l ++ [(k, v)]) = <[k := v]> (dict l).
Proof. unfold dict. by rewrite foldl_app. Qed.

(** ** The item -> order number map *)

Lemma dict_drop_duplicates_snoc {K V : Type} `{Countable K} `{EqDecision V}
  (l : list (K * V)) (k : K) (v : V) :
  dict (drop_duplicates (l ++ [(k, v)])) =
  if decide ((k, v) ∈ l) then dict (drop_duplicates l)
  else <[k := v]> (dict (drop_duplicates l)).
Proof.
  rewrite drop_duplicates_snoc.
  destruct (decide ((k, v) ∈ l)) as [Hin|Hin]; case_decide as Hd;
    rewrite elem_of_drop_duplicates in Hd; try done.
  apply dict_snoc.
Qed.

Lemma latest_first_seen_old {K V : Type} (l : list (K * V)) (x : K * V) k c :
  x ∈ l →
  (∃ i, latest_first_seen (l ++ [x]) k c i) ↔ (∃ i, latest_first_seen l k c i).
Proof.
  intros Hx. split; intros (i & Hi & Hfirst & Hother).
  - destruct (decide (i < length l)%nat) as [Hlt|Hge].
    + exists i. rewrite lookup_app_l in Hi by done. split_and!; [done|..].
      * intros j Hj. specialize (Hfirst j Hj).
        rewrite lookup_app_l in Hfirst by lia. done.
      * intros j c' Hj Hc'.
        destruct (Hother j c') as (j' & Hj' & Hl); [|done|].
        { rewrite lookup_app_l; [done|]. by eapply lookup_lt_Some. }
        exists j'. split; [done|]. rewrite lookup_app_l in Hl by lia. done.
    + exfalso. assert (i = length l) as ->.
      { apply lookup_lt_Some in Hi. rewrite length_app in Hi. simpl in Hi. lia. }
      rewrite list_lookup_middle in Hi by done. simplify_eq.
      apply list_elem_of_lookup in Hx as [j Hj].
      apply (Hfirst j); [by eapply lookup_lt_Some|].
      rewrite lookup_app_l; [done|]. by eapply lookup_lt_Some.
  - exists i. pose proof (lookup_lt_Some _ _ _ Hi) as Hlt. split_and!.
    + by rewrite lookup_app_l.
    + intros j Hj. rewrite lookup_app_l by lia. by apply Hfirst.
    + intros j c' Hj Hc'.
      assert (∃ j0, l !! j0 = Some (k, c')) as [j0 Hj0].
      { destruct (decide (j < length l)%nat).
        - exists j. by rewrite lookup_app_l in Hj.
        - assert (j = length l) as ->.
          { apply lookup_lt_Some in Hj. rewrite length_app in Hj. simpl in Hj. lia. }
          rewrite list_lookup_middle in Hj by done. simplify_eq.
          by apply list_elem_of_lookup. }
      destruct (Hother j0 c' Hj0 Hc') as (j' & Hj' & Hl).
      exists j'. split; [done|]. rewrite lookup_app_l by lia. done.
Qed.

Lemma dict_latest_first_seen {K V : Type} `{Countable K} `{EqDecision V}
  (l : list (K * V)) (k : K) (c : V) :
  dict (drop_duplicates l) !! k = Some c ↔ ∃ i, latest_first_seen l k c i.
Proof.
  revert k c. induction l as [|[k0 c0] l IH] using rev_ind; intros k c.
  { unfold dict, drop_duplicates; simpl. rewrite lookup_empty.
    split; [done|]. by intros (i & Hi & _). }
  rewrite dict_drop_duplicates_snoc.
  destruct (decide ((k0, c0) ∈ l)) as [Hin|Hin].
  { by rewrite latest_first_seen_old. }
  destruct (decide (k0 = k)) as [->|Hk].
  - rewrite lookup_insert_eq. split.
    + intros [= ->]. exists (length l). split_and!.
      * by rewrite list_lookup_middle.
      * intros j Hj Hl. rewrite lookup_app_l in Hl by done.
        apply Hin. by apply list_elem_of_lookup_2 in Hl.
      * intros j c' Hj Hc'. exists j.
        destruct (decide (j < length l)%nat); [by rewrite lookup_app_l in Hj |- *|].
        assert (j = length l) as ->.
        { apply lookup_lt_Some in Hj. rewrite length_app in Hj. simpl in Hj. lia. }
        rewrite list_lookup_middle in Hj by done. by simplify_eq.
    + intros (i & Hi & Hfirst & Hother).
      destruct (decide (c = c0)) as [->|Hc]; [done|]. exfalso.
      destruct (Hother (length l) c0) as (j' & Hj' & Hl); [|done|].
      { by rewrite list_lookup_middle. }
      apply Hin. apply lookup_lt_Some in Hi. rewrite length_app in Hi.
      simpl in Hi. rewrite lookup_app_l in Hl by lia.
      by apply list_elem_of_lookup_2 in Hl.
  - rewrite lookup_insert_ne by done. rewrite IH.
    split; intros (i & Hi & Hfirst & Hother).
    + exists i. pose proof (lookup_lt_Some _ _ _ Hi) as Hlt. split_and!.
      * by rewrite lookup_app_l.
      * intros j Hj. rewrite lookup_app_l by lia. by apply Hfirst.
      * intros j c' Hj Hc'.
        destruct (decide (j < length l)%nat).
        -- rewrite lookup_app_l in Hj by done.
           destruct (Hother j c' Hj Hc') as (j' & Hj' & Hl).
           exists j'. split; [done|]. rewrite lookup_app_l by lia. done.
        -- assert (j = length l) as ->.
           { apply lookup_lt_Some in Hj. rewrite length_app in Hj. simpl in Hj. lia. }
           rewrite list_lookup_middle in Hj by done. by simplify_eq.
    + assert (i < length l)%nat as Hlt.
      { destruct (decide (i < length l)%nat); [done|].
        assert (i = length l) as ->.
        { apply lookup_lt_Some in Hi. rewrite length_app in Hi. simpl in Hi. lia. }
        rewrite list_lookup_middle in Hi by done. by simplify_eq. }
      exists i. rewrite lookup_app_l in Hi by done. split_and!; [done|..].
      * intros j Hj. specialize (Hfirst j Hj).
        rewrite lookup_app_l in Hfirst by lia. done.
      * intros j c' Hj Hc'.
        destruct (Hother j c') as (j' & Hj' & Hl); [|done|].
        { rewrite lookup_app_l; [done|]. by eapply lookup_lt_Some. }
        exists j'. split; [done|]. rewrite lookup_app_l in Hl by lia. done.
Qed.

(** A list that holds [x] holds it at a first position. *)
Lemma first_position {A : Type} `{EqDecision A} (l : list A) (x : A) :
  x ∈ l → ∃ i, l !! i = Some x ∧ ∀ j, (j < i)%nat → l !! j ≠ Some x.
Proof.
  induction l as [|y l IH]; [by intros ?%elem_of_nil|].
  intros Hin. destruct (decide (y = x)) as [->|Hne].
  - exists 0%nat. split; [done|]. intros j Hj. lia.
  - apply elem_of_cons in Hin as [->|Hin]; [done|].
    destruct (IH Hin) as (i & Hi & Hfirst). exists (S i). split; [done|].
    intros [|j] Hj; simpl; [congruence|]. apply Hfirst. lia.
Qed.

(** C3, as stated, fails: item "A" occurs first with "X1" and then with "X2",
    and the map holds "X2". *)
Lemma item_bestell_map_first_occurrence_fails :
  first_occurrence_code df_two_codes (Some "A") = Some "X1" ∧
  item_bestell_map df_two_codes !! Some "A" = Some "X2" ∧
  item_bestell_map df_two_codes !! Some "A"
    ≠ first_occurrence_code df_two_codes (Some "A").
Proof. by vm_compute. Qed.

(** C3 (amended): the map sends an item to the order number [c] whose first
    occurrence with that item comes last among the order numbers the item
    occurs with; an item that occurs with a single order number is sent to
    that one. *)
Theorem item_bestell_map_latest_first_seen (df : list df_row) :
  (∀ item c,
     item_bestell_map df !! item = Some c ↔
     ∃ i, latest_first_seen (item_pairs df) item c i) ∧
  (∀ item c,
     (∃ r, r ∈ df ∧ item_column r = item) →
     (∀ r, r ∈ df → item_column r = item → bestellnummer_column r = c) →
     item_bestell_map df !! item = Some c).
Proof.
  assert (∀ item c, item_bestell_map df !! item = Some c ↔
                    ∃ i, latest_first_seen (item_pairs df) item c i) as Hspec.
  { intros item c. apply dict_latest_first_seen. }
  split; [done|]. intros item c (r & Hr & Hitem) Hsingle.
  apply Hspec.
  assert ((item, c) ∈ item_pairs df) as Hin.
  { apply list_elem_of_fmap. exists r. split; [|done].
    by rewrite Hitem, (Hsingle r Hr Hitem). }
  destruct (first_position _ _ Hin) as (i & Hi & Hfirst).
  exists i. split_and!; [done..|].
  intros j c' Hj Hc'. exfalso. apply Hc'.
  apply list_lookup_fmap_Some in Hj as (r' & Hr' & Heq). simplify_eq.
  apply Hsingle; [by eapply list_elem_of_lookup_2|done].
Qed.

(** C3 (amended) at [df_two_codes]: "X2" is first seen after "X1". *)
Lemma item_bestell_map_latest_first_seen_witness :
  item_bestell_map df_two_codes !! Some "A" = Some "X2".
Proof.
  apply (proj1 (item_bestell_map_latest_first_seen df_two_codes)).
  exists 1%nat. split_and!.
  - reflexivity.
  - intros [|j] Hj; [discriminate|lia].
  - intros [|[|j]] c' Hj Hc'; simplify_eq/=.
    exists 0%nat. split; [lia|done].
Defined.

(** ** Grouping *)

Lemma elem_of_group_keys (df : list df_row) (k : Z) :
  k ∈ group_keys df ↔ ∃ r, r ∈ df ∧ id_column r = Some k.
Proof.
  unfold group_keys. rewrite merge_sort_Permutation, elem_of_drop_duplicates.
  apply list_elem_of_omap.
Qed.

Lemma elem_of_group_items (df : list df_row) (k : Z) (x : string) :
  x ∈ group_items df k ↔
  ∃ r name, r ∈ df ∧ id_column r = Some k ∧ item_column r = Some name
            ∧ x = strip name.
Proof.
  unfold group_items. rewrite list_elem_of_omap. split.
  - intros (r & [Hid Hr]%list_elem_of_filter & Hx).
    destruct (item_column r) as [name|] eqn:Hname; [|done].
    exists r, name. simpl in Hx. by simplify_eq.
  - intros (r & name & Hr & Hid & Hname & ->). exists r.
    rewrite list_elem_of_filter, Hname. done.
Qed.

Lemma group_items_nil (df : list df_row) (k : Z) :
  group_items df k = [] ↔
  ∀ r, r ∈ df → id_column r = Some k → item_column r = None.
Proof.
  split.
  - intros Hnil r Hr Hid. destruct (item_column r) as [name|] eqn:Hname; [|done].
    assert (strip name ∈ group_items df k) as Hin.
    { apply elem_of_group_items. by exists r, name. }
    rewrite Hnil in Hin. by apply elem_of_nil in Hin.
  - intros Hall. destruct (group_items df k) as [|x l] eqn:Hg; [done|].
    assert (x ∈ group_items df k) as Hin by (rewrite Hg; left).
    apply elem_of_group_items in Hin as (r & name & Hr & Hid & Hname & _).
    rewrite (Hall r Hr Hid) in Hname. done.
Qed.

Lemma transactions_Ok (df : list df_row) (ts : list (list string)) :
  transactions df = Ok ts → ts = group_items df <$> group_keys df.
Proof.
  unfold transactions, grouped. rewrite <-list_fmap_compose.
  destruct (_ <$> group_keys df) eqn:Heq; [done|]. by intros [= <-].
Qed.

(** C4, as stated, fails: the only row of transaction 2 has no item name, and
    the transaction is handed on as an empty list. *)
Lemma transactions_empty_kept :
  transactions df_missing_item = Ok [["A"; "B"]; []] ∧
  ¬ (∀ ts, transactions df_missing_item = Ok ts → Forall (λ t, t ≠ []) ts).
Proof.
  split; [by vm_compute|]. intros Hall.
  specialize (Hall [["A"; "B"]; []] eq_refl).
  apply Forall_cons in Hall as [_ Hall]. by apply Forall_cons in Hall as [? _].
Qed.

Lemma transactions_Raise (df : list df_row) (e : exn) :
  transactions df = Raise e ↔
  e = ValueError ∧ ∀ r, r ∈ df → id_column r = None.
Proof.
  unfold transactions, grouped. rewrite <-list_fmap_compose.
  destruct (group_keys df) as [|k ks] eqn:Hk; simpl.
  - split; [|by intros [-> _]]. intros [= <-]. split; [done|]. intros r Hr.
    destruct (id_column r) as [k|] eqn:Hid; [|done].
    assert (k ∈ group_keys df) as Hin by (apply elem_of_group_keys; by exists r).
    rewrite Hk in Hin. by apply elem_of_nil in Hin.
  - split; [done|]. intros [_ Hall]. exfalso.
    assert (k ∈ group_keys df) as Hin by (rewrite Hk; left).
    apply elem_of_group_keys in Hin as (r & Hr & Hid).
    by rewrite (Hall r Hr) in Hid.
Qed.

(** C4 (amended): the transaction list is refused, with ValueError, exactly
    when no row carries a transaction id; otherwise it has one transaction
    per transaction id of the input and no other, in ascending order of the
    ids; a transaction holds the trimmed item names of its rows that have
    one, in row order, and is empty exactly when none of its rows has an item
    name.  Empty transactions are kept. *)
Theorem transactions_one_per_id (df : list df_row) :
  (transactions df = Raise ValueError ↔ ∀ r, r ∈ df → id_column r = None) ∧
  (∀ e, transactions df = Raise e → e = ValueError) ∧
  (∀ ts, transactions df = Ok ts →
     ∃ keys,
       Sorted Z.le keys ∧ NoDup keys ∧
       (∀ k, k ∈ keys ↔ ∃ r, r ∈ df ∧ id_column r = Some k) ∧
       length ts = length keys ∧
       ∀ i k, keys !! i = Some k →
         ∃ t, ts !! i = Some t ∧
              t = omap (λ r, strip <$> item_column r)
                       (filter (λ r, id_column r = Some k) df) ∧
              (∀ x, x ∈ t ↔ ∃ r name, r ∈ df ∧ id_column r = Some k
                                       ∧ item_column r = Some name
                                       ∧ x = strip name) ∧
              (t = [] ↔
               ∀ r, r ∈ df → id_column r = Some k → item_column r = None)).
Proof.
  split_and!.
  - rewrite transactions_Raise. split; [by intros [_ ?]|done].
  - by intros e [-> _]%transactions_Raise.
  - intros ts ->%transactions_Ok. exists (group_keys df). split_and!.
    + apply Sorted_merge_sort; apply _.
    + unfold group_keys. rewrite merge_sort_Permutation.
      apply NoDup_drop_duplicates.
    + apply elem_of_group_keys.
    + by rewrite length_fmap.
    + intros i k Hk. exists (group_items df k). split_and!.
      * by rewrite list_lookup_fmap, Hk.
      * done.
      * apply elem_of_group_items.
      * apply group_items_nil.
Qed.

(** C4 (amended) at [df_missing_item]: the list is returned, and the
    transaction of id 2, whose only row has no item name, is in it and is
    empty. *)
Lemma transactions_one_per_id_witness :
  ∃ ts t, transactions df_missing_item = Ok ts ∧ ts !! 1%nat = Some t ∧ t = [].
Proof.
  assert (transactions df_missing_item = Ok [["A"; "B"]; []]) as H
    by (vm_compute; reflexivity).
  destruct (proj2 (proj2 (transactions_one_per_id df_missing_item)) _ H)
    as (keys & Hsorted & Hnd & Hkeys & Hlen & Hts).
  assert (keys !! 1%nat = Some 2) as Hk.
  { assert (1 ∈ keys) as H1.
    { apply Hkeys. eexists. split; [by left|reflexivity]. }
    assert (2 ∈ keys) as H2.
    { apply Hkeys. eexists. split; [do 2 right; by left|reflexivity]. }
    destruct keys as [|a [|b [|c keys]]]; simpl in Hlen; try lia.
    apply Sorted_inv in Hsorted as [_ Hab]. apply HdRel_inv in Hab.
    rewrite !elem_of_cons, elem_of_nil in H1, H2.
    assert (b = 2) as -> by lia. reflexivity. }
  destruct (Hts 1%nat 2 Hk) as (t & Ht & _ & _ & Hnil).
  exists [["A"; "B"]; []], t. split; [exact H|]. split; [exact Ht|].
  apply Hnil. intros r Hr Hid.
  apply elem_of_cons in Hr as [->|Hr]; [done|].
  apply elem_of_cons in Hr as [->|Hr]; [done|].
  by apply list_elem_of_singleton in Hr as ->.
Defined.

(** ** Mat_combination *)

Lemma sorted_drop_duplicates_strict (l : list string) :
  StronglySorted str_lt (sorted (drop_duplicates l)).
Proof.
  unfold sorted.
  assert (NoDup (merge_sort String.le (drop_duplicates l))) as Hnd.
  { rewrite merge_sort_Permutation. apply NoDup_drop_duplicates. }
  pose proof (StronglySorted_merge_sort String.le (drop_duplicates l)) as Hs.
  induction Hs as [|x l' Hs IH Hall]; [constructor|].
  apply NoDup_cons in Hnd as [Hx Hnd]. constructor; [by apply IH|].
  apply Forall_forall. intros y Hy. split.
  - by eapply Forall_forall in Hall.
  - intros ->. done.
Qed.

Lemma elem_of_sorted (l : list string) (x : string) : x ∈ sorted l ↔ x ∈ l.
Proof. unfold sorted. by rewrite merge_sort_Permutation. Qed.

Lemma sorted_Permutation (l1 l2 : list string) :
  l1 ≡ₚ l2 → sorted l1 = sorted l2.
Proof.
  intros HP. unfold sorted. apply (Sorted_unique String.le).
  - apply Sorted_merge_sort; apply _.
  - apply Sorted_merge_sort; apply _.
  - by rewrite !merge_sort_Permutation.
Qed.

Lemma elem_of_bestellnummern m (row : rule) (c : string) :
  c ∈ bestellnummern m row ↔
  ∃ item, (item ∈ antecedents row ∨ item ∈ consequents row)
          ∧ m !! Some item = Some c.
Proof.
  unfold bestellnummern.
  rewrite elem_of_sorted, elem_of_drop_duplicates, list_elem_of_omap.
  by setoid_rewrite elem_of_union.
Qed.

Lemma bestellnummern_same_items m (row row' : rule) :
  (∀ item, item ∈ antecedents row ∨ item ∈ consequents row ↔
           item ∈ antecedents row' ∨ item ∈ consequents row') →
  bestellnummern m row = bestellnummern m row'.
Proof.
  intros Hsame. unfold bestellnummern. apply sorted_Permutation.
  apply NoDup_Permutation; [apply NoDup_drop_duplicates..|].
  intros c. rewrite !elem_of_drop_duplicates, !list_elem_of_omap.
  setoid_rewrite elem_of_union. by setoid_rewrite Hsame.
Qed.

(** ** The 8-digit id *)

Lemma str_app_nil (b : string) : "" +:+ b = b.
Proof. reflexivity. Qed.

Lemma str_app_cons (c : ascii) (a b : string) :
  String c a +:+ b = String c (a +:+ b).
Proof. reflexivity. Qed.

Lemma str_length_app (a b : string) :
  String.length (a +:+ b) = (String.length a + String.length b)%nat.
Proof.
  induction a as [|c a IH]; [done|]. rewrite str_app_cons. simpl. by rewrite IH.
Qed.

Lemma str_length_repeat (c : ascii) (n : nat) : String.length (str_repeat c n) = n.
Proof. induction n as [|n IH]; simpl; [done|]. by rewrite IH. Qed.

Lemma str_app_assoc (a b c : string) : (a +:+ b) +:+ c = a +:+ (b +:+ c).
Proof.
  induction a as [|x a IH]; [done|]. rewrite !str_app_cons. by rewrite IH.
Qed.

Lemma str_get_app_l (a b : string) (i : nat) :
  (i < String.length a)%nat → String.get i (a +:+ b) = String.get i a.
Proof.
  revert i. induction a as [|x a IH]; intros i Hi; simpl in Hi; [lia|].
  rewrite str_app_cons. destruct i as [|i]; [done|]. simpl. apply IH. lia.
Qed.

Lemma str_get_app_r (a b : string) (i : nat) :
  (String.length a ≤ i)%nat →
  String.get i (a +:+ b) = String.get (i - String.length a) b.
Proof.
  revert i. induction a as [|x a IH]; intros i Hi; simpl in Hi.
  { by rewrite str_app_nil, Nat.sub_0_r. }
  rewrite str_app_cons. destruct i as [|i]; [lia|]. simpl. apply IH. lia.
Qed.

Lemma str_get_repeat (c : ascii) (n i : nat) :
  (i < n)%nat → String.get i (str_repeat c n) = Some c.
Proof.
  revert i. induction n as [|n IH]; intros i Hi; [lia|].
  destruct i as [|i]; [done|]. simpl. apply IH. lia.
Qed.

Lemma str_length_drop (n : nat) (s : string) :
  String.length (str_drop n s) = (String.length s - n)%nat.
Proof.
  revert s. induction n as [|n IH]; intros s; simpl.
  { by rewrite Nat.sub_0_r. }
  destruct s as [|c s]; [done|]. apply IH.
Qed.

Lemma str_get_drop (n : nat) (s : string) (i : nat) :
  String.get i (str_drop n s) = String.get (n + i) s.
Proof.
  revert s. induction n as [|n IH]; intros s; [done|].
  destruct s as [|c s]; simpl; [by destruct i|]. apply IH.
Qed.

(** *** The digest as a number *)

Lemma hex_value_digit (d : Z) : 0 ≤ d < 16 → hex_value (hex_digit d) = Some d.
Proof.
  intros Hd.
  assert (d = 0 ∨ d = 1 ∨ d = 2 ∨ d = 3 ∨ d = 4 ∨ d = 5 ∨ d = 6 ∨ d = 7 ∨
          d = 8 ∨ d = 9 ∨ d = 10 ∨ d = 11 ∨ d = 12 ∨ d = 13 ∨ d = 14 ∨ d = 15)
    as Hcases by lia.
  destruct_or!; subst d; reflexivity.
Qed.

Lemma int_base16_from_hexdigest (l : list Z) (acc : Z) :
  Forall (λ b, 0 ≤ b < 256) l →
  int_base16_from acc (hexdigest l) = Ok (foldl (λ a b, a * 256 + b) acc l).
Proof.
  intros Hl. revert acc. induction Hl as [|b l Hb Hl IH]; intros acc; [done|].
  simpl. rewrite !hex_value_digit.
  - rewrite IH. do 2 f_equal.
    pose proof (Z.div_mod b 16 ltac:(lia)). lia.
  - apply Z.mod_pos_bound. lia.
  - split; [apply Z.div_pos; lia|]. apply Z.div_lt_upper_bound; lia.
Qed.

Lemma int_base16_hexdigest (l : list Z) :
  l ≠ [] → Forall (λ b, 0 ≤ b < 256) l →
  int_base16 (hexdigest l) = Ok (be_value l).
Proof.
  intros Hne Hl. destruct l as [|b l]; [done|].
  change (int_base16 (hexdigest (b :: l)))
    with (int_base16_from 0 (hexdigest (b :: l))).
  by apply int_base16_from_hexdigest.
Qed.

Lemma be_bytes_range (k : nat) (x : Z) : Forall (λ b, 0 ≤ b < 256) (be_bytes k x).
Proof.
  induction k as [|k IH]; simpl; constructor; [|done].
  apply Z.mod_pos_bound. lia.
Qed.

Lemma length_be_bytes (k : nat) (x : Z) : length (be_bytes k x) = k.
Proof. induction k as [|k IH]; simpl; [done|]. by rewrite IH. Qed.

Lemma length_sha_round (s : list Z) (kw : Z * Z) :
  length (sha_round s kw) = length s.
Proof.
  unfold sha_round.
  destruct s as [|a [|b [|c [|d [|e [|f [|g [|h [|? ?]]]]]]]]]; done.
Qed.

Lemma length_sha_block (h block : list Z) : length (sha_block h block) = length h.
Proof.
  unfold sha_block. rewrite length_zip_with.
  assert (∀ l s, length (foldl sha_round s l) = length s) as Hfold.
  { intros l. induction l as [|kw l IH]; intros s; simpl; [done|].
    by rewrite IH, length_sha_round. }
  rewrite Hfold. lia.
Qed.

Lemma length_sha_state (blocks : list (list Z)) (h : list Z) :
  length (foldl sha_block h blocks) = length h.
Proof.
  revert h. induction blocks as [|b blocks IH]; intros h; simpl; [done|].
  by rewrite IH, length_sha_block.
Qed.

Lemma sha256_digest (data : list Z) :
  sha256 data ≠ [] ∧ Forall (λ b, 0 ≤ b < 256) (sha256 data).
Proof.
  unfold sha256.
  set (st := foldl sha_block sha_H0 _).
  assert (length st = 8%nat) as Hlen by apply length_sha_state.
  split.
  - destruct st as [|w st]; [done|]. simpl. done.
  - apply Forall_forall. intros b (w & Hb & _)%list_elem_of_bind.
    pose proof (be_bytes_range 4 w) as Hr. by eapply Forall_forall in Hr.
Qed.

(** *** Decimal digits *)

Lemma dec_snoc (k : nat) (n : Z) :
  0 ≤ n → dec (S k) n = dec k (n / 10) +:+ String (digit_char (n mod 10)) "".
Proof.
  intros Hn. induction k as [|k IH].
  { simpl. by rewrite Z.div_1_r. }
  change (dec (S (S k)) n)
    with (String (digit_char ((n / 10 ^ Z.of_nat (S k)) mod 10)) (dec (S k) n)).
  rewrite IH. simpl. do 3 f_equal.
  rewrite Z.div_div by lia. f_equal.
  rewrite Nat2Z.inj_succ, Z.pow_succ_r by lia. done.
Qed.

Lemma decimal_digits_dec (fuel : nat) (n : Z) (acc : string) :
  0 ≤ n < 2 ^ (Z.of_nat fuel + 1) →
  ∃ j, (1 ≤ j)%nat ∧ n < 10 ^ Z.of_nat j ∧
       ((1 < j)%nat → 10 ^ Z.of_nat (j - 1) ≤ n) ∧
       decimal_digits fuel n acc = dec j n +:+ acc.
Proof.
  revert n acc. induction fuel as [|fuel IH]; intros n acc Hn.
  - exists 1%nat. simpl in *. split_and!; [lia..|]. by rewrite Z.div_1_r.
  - simpl decimal_digits. destruct (n <? 10) eqn:Hlt.
    + apply Z.ltb_lt in Hlt. exists 1%nat. split_and!; [lia..|].
      simpl. by rewrite Z.div_1_r.
    + apply Z.ltb_ge in Hlt.
      destruct (IH (n / 10) (String (digit_char (n mod 10)) acc))
        as (j & Hj & Hbound & Hmin & Heq).
      { split; [apply Z.div_pos; lia|].
        apply Z.div_lt_upper_bound; [lia|].
        replace (Z.of_nat (S fuel) + 1) with (Z.succ (Z.of_nat fuel + 1)) in Hn
          by lia.
        rewrite Z.pow_succ_r in Hn by lia. 
        assert (0 < 2 ^ (Z.of_nat fuel + 1)) by (apply Z.pow_pos_nonneg; lia).
        lia. }
      pose proof (Z.div_mod n 10 ltac:(lia)) as Hdm.
      pose proof (Z.mod_pos_bound n 10 ltac:(lia)) as Hmod.
      exists (S j). split_and!; [lia| | |].
      * rewrite Nat2Z.inj_succ, Z.pow_succ_r by lia. lia.
      * intros _. replace (S j - 1)%nat with j by lia.
        destruct (decide (j = 1)%nat) as [->|Hj1]; [simpl; lia|].
        specialize (Hmin ltac:(lia)).
        replace (Z.of_nat j) with (Z.succ (Z.of_nat (j - 1))) by lia.
        rewrite Z.pow_succ_r by lia. lia.
      * rewrite Heq, dec_snoc by lia. by rewrite str_app_assoc.
Qed.

Lemma str_of_int_dec (n : Z) :
  0 ≤ n →
  ∃ j, (1 ≤ j)%nat ∧ n < 10 ^ Z.of_nat j ∧
       ((1 < j)%nat → 10 ^ Z.of_nat (j - 1) ≤ n) ∧ str_of_int n = dec j n.
Proof.
  intros Hn. unfold str_of_int.
  destruct (n <? 0) eqn:Hneg; [apply Z.ltb_lt in Hneg; lia|].
  destruct (decimal_digits_dec (Z.to_nat (Z.log2 n)) n "")
    as (j & Hj & Hb & Hmin & Heq).
  { split; [done|]. rewrite Z2Nat.id by apply Z.log2_nonneg.
    destruct (decide (n = 0)) as [->|Hne]; [done|].
    replace (Z.log2 n + 1) with (Z.succ (Z.log2 n)) by lia.
    apply Z.log2_spec. lia. }
  exists j. split_and!; [done..|]. rewrite Heq.
  clear. induction (dec j n) as [|c s IH]; [done|].
  rewrite str_app_cons. by rewrite IH.
Qed.

Lemma length_dec (k : nat) (n : Z) : String.length (dec k n) = k.
Proof. induction k as [|k IH]; simpl; [done|]. by rewrite IH. Qed.

Lemma dec_pad (j k : nat) (n : Z) :
  0 ≤ n < 10 ^ Z.of_nat j →
  str_repeat "0" k +:+ dec j n = dec (k + j) n.
Proof.
  intros Hn. induction k as [|k IH]; [done|].
  simpl str_repeat. rewrite str_app_cons, IH. simpl. f_equal.
  rewrite Z.div_small; [done|]. split; [lia|].
  eapply Z.lt_le_trans; [apply Hn|]. apply Z.pow_le_mono_r; lia.
Qed.

Lemma digit_char_cases (d : Z) :
  0 ≤ d ≤ 9 →
  d = 0 ∨ d = 1 ∨ d = 2 ∨ d = 3 ∨ d = 4 ∨ d = 5 ∨ d = 6 ∨ d = 7 ∨ d = 8 ∨ d = 9.
Proof. lia. Qed.

Lemma digit_char_zero (d : Z) : 0 ≤ d ≤ 9 → digit_char d = "0"%char ↔ d = 0.
Proof.
  intros Hd%digit_char_cases. destruct_or!; subst d; split; intros; done.
Qed.

Lemma digit_char_not_sign (d : Z) :
  0 ≤ d ≤ 9 → ¬ (digit_char d = "+"%char ∨ digit_char d = "-"%char).
Proof.
  intros Hd%digit_char_cases. destruct_or!; subst d; intros [?|?]; done.
Qed.

Lemma zfill_str_of_int (n : Z) :
  0 ≤ n < 10 ^ 8 → zfill 8 (str_of_int n) = dec 8 n.
Proof.
  intros Hn. destruct (str_of_int_dec n) as (j & Hj & Hb & Hmin & ->); [lia|].
  assert (j ≤ 8)%nat as Hj8.
  { destruct (decide (j ≤ 8)%nat) as [|Hgt]; [done|].
    specialize (Hmin ltac:(lia)).
    assert (10 ^ 8 ≤ 10 ^ Z.of_nat (j - 1)) by (apply Z.pow_le_mono_r; lia).
    lia. }
  unfold zfill. rewrite length_dec.
  destruct j as [|j]; [lia|].
  destruct (dec (S j) n) as [|c s] eqn:Hdec; [done|].
  simpl in Hdec. injection Hdec as Hc Hs.
  rewrite bool_decide_eq_false_2.
  - rewrite <-Hc, <-Hs.
    change (String _ (dec j n)) with (dec (S j) n).
    rewrite dec_pad by lia. f_equal. lia.
  - rewrite <-Hc. apply digit_char_not_sign.
    pose proof (Z.mod_pos_bound (n / 10 ^ Z.of_nat j) 10 ltac:(lia)). lia.
Qed.

Lemma get_dec (k i : nat) (n : Z) :
  (i < k)%nat →
  String.get i (dec k n)
  = Some (digit_char ((n / 10 ^ Z.of_nat (k - 1 - i)) mod 10)).
Proof.
  revert i. induction k as [|k IH]; intros i Hi; [lia|].
  destruct i as [|i].
  - replace (S k - 1 - 0)%nat with k by lia. done.
  - replace (S k - 1 - S i)%nat with (k - 1 - i)%nat by lia.
    simpl. apply IH. lia.
Qed.

(** Position [i] lies in the leading run of zeros of the [k]-digit rendering
    of [n] exactly when [n] is below [10^(k-1-i)]. *)
Lemma leading_zeros_dec (k i : nat) (n : Z) :
  0 ≤ n < 10 ^ Z.of_nat k → (i < k)%nat →
  (i < leading_zeros (dec k n))%nat ↔ n < 10 ^ Z.of_nat (k - 1 - i).
Proof.
  revert i. induction k as [|k IH]; intros i Hn Hi; [lia|].
  simpl dec. simpl leading_zeros.
  assert (0 < 10 ^ Z.of_nat k) as Hpos by (apply Z.pow_pos_nonneg; lia).
  assert (0 ≤ n / 10 ^ Z.of_nat k < 10) as Hd.
  { split; [apply Z.div_pos; lia|]. apply Z.div_lt_upper_bound; [lia|].
    rewrite Nat2Z.inj_succ, Z.pow_succ_r in Hn by lia. lia. }
  rewrite (Z.mod_small _ 10) by lia.
  case_bool_decide as Hz.
  - apply digit_char_zero in Hz; [|lia].
    assert (n < 10 ^ Z.of_nat k) as Hlt.
    { apply Z.div_small_iff in Hz; lia. }
    destruct i as [|i].
    + replace (S k - 1 - 0)%nat with k by lia. split; [done|lia].
    + replace (S k - 1 - S i)%nat with (k - 1 - i)%nat by lia.
      rewrite <-IH by lia. lia.
  - assert (n / 10 ^ Z.of_nat k ≠ 0) as Hnz.
    { intros H0. apply Hz. by rewrite H0. }
    assert (10 ^ Z.of_nat k ≤ n) as Hge.
    { destruct (decide (10 ^ Z.of_nat k ≤ n)); [done|].
      exfalso. apply Hnz. apply Z.div_small. lia. }
    split; [lia|]. intros Hlt. exfalso.
    assert (10 ^ Z.of_nat (S k - 1 - i) ≤ 10 ^ Z.of_nat k)
      by (apply Z.pow_le_mono_r; lia).
    lia.
Qed.

Lemma leading_zeros_le (s : string) : (leading_zeros s ≤ String.length s)%nat.
Proof.
  induction s as [|c s IH]; simpl; [done|]. case_bool_decide; lia.
Qed.

Lemma length_sub_leading_zeros (s : string) :
  String.length (sub_leading_zeros s) = String.length s.
Proof.
  unfold sub_leading_zeros.
  rewrite str_length_app, str_length_repeat, str_length_drop.
  pose proof (leading_zeros_le s). lia.
Qed.

Lemma get_sub_leading_zeros (s : string) (i : nat) :
  String.get i (sub_leading_zeros s)
  = if decide (i < leading_zeros s)%nat then Some "9"%char else String.get i s.
Proof.
  unfold sub_leading_zeros. case_decide as Hi.
  - rewrite str_get_app_l by (by rewrite str_length_repeat).
    by apply str_get_repeat.
  - rewrite str_get_app_r by (rewrite str_length_repeat; lia).
    rewrite str_length_repeat, str_get_drop. f_equal. lia.
Qed.

Lemma create_unique_8digit_id_unfold (s : string) :
  create_unique_8digit_id s
  = Ok (sub_leading_zeros
          (dec 8 (be_value (sha256 (encode_utf8 s)) mod 10 ^ 8))).
Proof.
  unfold create_unique_8digit_id.
  destruct (sha256_digest (encode_utf8 s)) as [Hne Hrange].
  rewrite int_base16_hexdigest by done. simpl rbind.
  rewrite zfill_str_of_int; [done|]. apply Z.mod_pos_bound. lia.
Qed.

(** C5: the id is the SHA-256 digest of the UTF-8 bytes read as an unsigned
    number, reduced modulo 10^8 and written with eight decimal digits, where
    every digit of the leading run of zeros is a '9'.  It always has eight
    characters, all of them digits; a value 0 gives "99999999" and the padded
    value "00012345" gives "99912345". *)
Theorem create_unique_8digit_id_spec (s : string) :
  let mod_value := be_value (sha256 (encode_utf8 s)) mod 10 ^ 8 in
  (∃ id,
     create_unique_8digit_id s = Ok id ∧
     String.length id = 8%nat ∧
     (∀ i, (i < 8)%nat →
        String.get i id =
        Some (if decide (mod_value < 10 ^ Z.of_nat (7 - i)) then "9"%char
              else digit_char ((mod_value / 10 ^ Z.of_nat (7 - i)) mod 10))) ∧
     (∀ i, (i < 8)%nat →
        ∃ d, 0 ≤ d ≤ 9 ∧ String.get i id = Some (digit_char d))) ∧
  (zfill 8 (str_of_int 0) = "00000000" ∧
   sub_leading_zeros "00000000" = "99999999") ∧
  (zfill 8 (str_of_int 12345) = "00012345" ∧
   sub_leading_zeros "00012345" = "99912345").
Proof.
  intros mod_value.
  assert (0 ≤ mod_value < 10 ^ 8) as Hmod by (apply Z.mod_pos_bound; lia).
  split; [|by vm_compute].
  exists (sub_leading_zeros (dec 8 mod_value)).
  assert (∀ i, (i < 8)%nat →
    String.get i (sub_leading_zeros (dec 8 mod_value)) =
    Some (if decide (mod_value < 10 ^ Z.of_nat (7 - i)) then "9"%char
          else digit_char ((mod_value / 10 ^ Z.of_nat (7 - i)) mod 10)))
    as Hget.
  { intros i Hi. rewrite get_sub_leading_zeros.
    pose proof (leading_zeros_dec 8 i mod_value Hmod Hi) as Hlz.
    replace (8 - 1 - i)%nat with (7 - i)%nat in Hlz by lia.
    destruct (decide (i < leading_zeros (dec 8 mod_value))%nat) as [Hl|Hl];
      destruct (decide (mod_value < 10 ^ Z.of_nat (7 - i))) as [Hm|Hm];
      try done; try tauto.
    rewrite get_dec by done. by replace (8 - 1 - i)%nat with (7 - i)%nat by lia. }
  split_and!.
  - apply create_unique_8digit_id_unfold.
  - by rewrite length_sub_leading_zeros, length_dec.
  - exact Hget.
  - intros i Hi. rewrite (Hget i Hi). case_decide.
    + exists 9. by split; [lia|].
    + eexists. split; [|done].
      pose proof (Z.mod_pos_bound (mod_value / 10 ^ Z.of_nat (7 - i)) 10
                    ltac:(lia)). lia.
Qed.

(** C5 at "abc". *)
Lemma create_unique_8digit_id_spec_witness :
  ∃ id, create_unique_8digit_id "abc" = Ok id ∧ String.length id = 8%nat.
Proof.
  destruct (create_unique_8digit_id_spec "abc") as [(id & Hid & Hlen & _) _].
  exists id. by split.
Defined.

Example create_unique_8digit_id_abc : create_unique_8digit_id "abc" = Ok "17089965".
Proof. by vm_compute. Qed.

Example create_unique_8digit_id_two_blocks :
  create_unique_8digit_id
    "Bestellnummern: 100000-100001-100002-100003-100004-100005-100006-100007-100008-100009-100010-100011"
  = Ok "91234764".
Proof. by vm_compute. Qed.

Example sha256_abc :
  hexdigest (sha256 (encode_utf8 "abc"))
  = "ba7816bf8f01cfea414140de5dae2223b00361a396177a9cb410ff61f20015ad".
Proof. by vm_compute. Qed.

(** ** Node sizes *)

Lemma prefix_spec (p s : string) : String.prefix p s = true ↔ ∃ v, s = p +:+ v.
Proof.
  revert s. induction p as [|a p IH]; intros s.
  { split; [|by destruct s]. intros _. by exists s. }
  destruct s as [|b s]; simpl.
  { split; [done|]. by intros [v Hv]. }
  destruct (ascii_dec a b) as [->|Hne].
  - rewrite IH. split; intros [v Hv]; exists v.
    + by rewrite str_app_cons, <-Hv.
    + rewrite str_app_cons in Hv. by injection Hv.
  - split; [done|]. intros [v Hv]. rewrite str_app_cons in Hv.
    injection Hv as ? ?. done.
Qed.

Lemma str_contains_spec (s p : string) : str_contains s p = true ↔ occurs_in p s.
Proof.
  induction s as [|a s IH].
  - cbn [str_contains]. rewrite orb_false_r, prefix_spec. split.
    + intros [v Hv]. by exists "", v.
    + intros (u & v & Huv). destruct u as [|x u]; [|done].
      exists v. done.
  - cbn [str_contains]. rewrite orb_true_iff, prefix_spec, IH. split.
    + intros [[v Hv]|(u & v & Huv)].
      * by exists "", v.
      * exists (String a u), v. by rewrite str_app_cons, <-Huv.
    + intros (u & v & Huv). destruct u as [|x u].
      * left. by exists v.
      * right. rewrite str_app_cons in Huv. injection Huv as -> Huv.
        by exists u, v.
Qed.

Lemma nodes_build_graph_snoc (rules : list annotated_rule) (r : annotated_rule) :
  nodes (build_graph (rules ++ [r]))
  = add_node (add_node (nodes (build_graph rules)) (antecedents_str r))
             (consequents_str r).
Proof. unfold build_graph. by rewrite foldl_app. Qed.

Lemma elem_of_add_node (ns : list string) (n x : string) :
  x ∈ add_node ns n ↔ x ∈ ns ∨ x = n.
Proof.
  unfold add_node. case_decide as Hin.
  - split; [by left|]. by intros [?| ->].
  - by rewrite elem_of_app, list_elem_of_singleton.
Qed.

Lemma NoDup_add_node (ns : list string) (n : string) :
  NoDup ns → NoDup (add_node ns n).
Proof.
  intros Hnd. unfold add_node. case_decide as Hin; [done|].
  apply NoDup_app. split_and!; [done| |apply NoDup_singleton].
  intros x Hx ->%list_elem_of_singleton. done.
Qed.

Lemma NoDup_nodes_build_graph (rules : list annotated_rule) :
  NoDup (nodes (build_graph rules)).
Proof.
  induction rules as [|r rules IH] using rev_ind; [constructor|].
  rewrite nodes_build_graph_snoc. by do 2 apply NoDup_add_node.
Qed.

Lemma elem_of_nodes_build_graph (rules : list annotated_rule) (label : string) :
  label ∈ nodes (build_graph rules) ↔
  ∃ r, r ∈ rules ∧ (antecedents_str r = label ∨ consequents_str r = label).
Proof.
  induction rules as [|r rules IH] using rev_ind.
  { split; [by intros ?%elem_of_nil|]. by intros (r & ?%elem_of_nil & _). }
  rewrite nodes_build_graph_snoc, !elem_of_add_node, IH. split.
  - intros [[(r' & Hr' & Hl)| ->]| ->].
    + exists r'. split; [|done]. apply elem_of_app. by left.
    + exists r. split; [|by left]. apply elem_of_app. right. by left.
    + exists r. split; [|by right]. apply elem_of_app. right. by left.
  - intros (r' & [Hr'| ->%list_elem_of_singleton]%elem_of_app & Hl).
    + left. left. by exists r'.
    + destruct Hl as [<-| <-]; [by left; right|by right].
Qed.

Lemma node_count_sum (label : string) (rules : list annotated_rule)
  (dec : ∀ r, Decision (occurs_in label (antecedents_str r)
                        ∨ occurs_in label (consequents_str r))) :
  foldr Z.add 0 (node_count label <$> rules)
  = count_sum (λ r, occurs_in label (antecedents_str r)
                    ∨ occurs_in label (consequents_str r)) rules.
Proof.
  unfold count_sum. induction rules as [|r rules IH]; [done|].
  rewrite fmap_cons, filter_cons. simpl foldr. rewrite IH. unfold node_count.
  assert ((str_contains (antecedents_str r) label
           || str_contains (consequents_str r) label) = true
          ↔ occurs_in label (antecedents_str r)
            ∨ occurs_in label (consequents_str r)) as Hb.
  { by rewrite orb_true_iff, !str_contains_spec. }
  destruct (dec r) as [Hyes|Hno]; simpl.
  - apply Hb in Hyes. by rewrite Hyes.
  - rewrite <-Hb in Hno. apply not_true_is_false in Hno. by rewrite Hno.
Qed.

(** C8, as stated, fails: the aggregate of node "A" is 12, and the rules whose
    antecedent string or consequent string is "A" sum to 8; the rules with
    "A, B" and "A, C" on one side are counted as well. *)
Lemma node_sizes_not_exact_label :
  ∃ o, script df_example = Ok o ∧
       ("A", 12) ∈ out_node_sizes o ∧
       count_sum (λ r, antecedents_str r = "A" ∨ consequents_str r = "A")
                 (out_rules o) = 8.
Proof.
  eexists. split; [vm_compute; reflexivity|].
  split; [|vm_compute; reflexivity]. simpl. right. by left.
Qed.

(** C8 (amended): the nodes of the graph are the distinct antecedent and
    consequent strings of the rules, and the aggregate of a node is the sum
    of combination_count over the rules whose antecedent string or consequent
    string contains the node's label as a substring. *)
Theorem node_sizes_spec (rules : list annotated_rule) :
  let G := build_graph rules in
  NoDup (nodes G) ∧
  (∀ label, label ∈ nodes G ↔
            ∃ r, r ∈ rules ∧ (antecedents_str r = label ∨ consequents_str r = label)) ∧
  (node_sizes rules G).*1 = nodes G ∧
  (∀ label total
     (dec : ∀ r, Decision (occurs_in label (antecedents_str r)
                           ∨ occurs_in label (consequents_str r))),
     (label, total) ∈ node_sizes rules G →
     total = count_sum (λ r, occurs_in label (antecedents_str r)
                             ∨ occurs_in label (consequents_str r)) rules).
Proof.
  intros G. split_and!.
  - apply NoDup_nodes_build_graph.
  - apply elem_of_nodes_build_graph.
  - unfold node_sizes. rewrite <-list_fmap_compose. apply list_fmap_id.
  - intros label total dec (node & [= -> ->] & _)%list_elem_of_fmap.
    apply node_count_sum.
Qed.

(** C8 (amended) at the one-rule table [[annotated_example]]: the
    antecedent string "B" is a node of the graph. *)
Lemma node_sizes_spec_witness :
  "B" ∈ nodes (build_graph [annotated_example]).
Proof.
  apply (proj1 (proj2 (node_sizes_spec [annotated_example]))).
  exists annotated_example. split; [by left|by left].
Defined.

Example node_sizes_substring :
  node_sizes [annotated_example] (build_graph [annotated_example])
  = [("B", 2); ("A", 2)].
Proof. by vm_compute. Qed.

(** ** Node-size normalization *)

Lemma foldl_min_spec (c : Z) (cs : list Z) :
  foldl Z.min c cs ∈ c :: cs ∧ ∀ x, x ∈ c :: cs → foldl Z.min c cs ≤ x.
Proof.
  revert c. induction cs as [|d cs IH]; intros c; simpl.
  { split; [by left|]. intros x ->%list_elem_of_singleton. lia. }
  destruct (IH (Z.min c d)) as [Hin Hle]. split.
  - apply elem_of_cons in Hin as [Heq|Hin]; [|by do 2 right].
    rewrite Heq. destruct (Z.min_spec c d) as [[_ ->]|[_ ->]];
      [by left|right; by left].
  - intros x Hx.
    assert (foldl Z.min (Z.min c d) cs ≤ Z.min c d) as Hm by (apply Hle; by left).
    apply elem_of_cons in Hx as [->|Hx]; [lia|].
    apply elem_of_cons in Hx as [->|Hx]; [lia|].
    apply Hle. by right.
Qed.

Lemma foldl_max_spec (c : Z) (cs : list Z) :
  foldl Z.max c cs ∈ c :: cs ∧ ∀ x, x ∈ c :: cs → x ≤ foldl Z.max c cs.
Proof.
  revert c. induction cs as [|d cs IH]; intros c; simpl.
  { split; [by left|]. intros x ->%list_elem_of_singleton. lia. }
  destruct (IH (Z.max c d)) as [Hin Hle]. split.
  - apply elem_of_cons in Hin as [Heq|Hin]; [|by do 2 right].
    rewrite Heq. destruct (Z.max_spec c d) as [[_ ->]|[_ ->]];
      [right; by left|by left].
  - intros x Hx.
    assert (Z.max c d ≤ foldl Z.max (Z.max c d) cs) as Hm by (apply Hle; by left).
    apply elem_of_cons in Hx as [->|Hx]; [lia|].
    apply elem_of_cons in Hx as [->|Hx]; [lia|].
    apply Hle. by right.
Qed.

Lemma py_div_Ok (a b : Z) :
  b ≠ 0 → py_div (inject_Z a) (inject_Z b) = Ok (inject_Z a / inject_Z b)%Q.
Proof.
  intros Hb. unfold py_div.
  destruct (Qeq_bool (inject_Z b) 0) eqn:Heq; [|done].
  apply Qeq_bool_iff in Heq. unfold Qeq in Heq. simpl in Heq. lia.
Qed.

Lemma ratio_bounds (x d : Z) :
  0 ≤ x ≤ d → 0 < d → (0 <= inject_Z x / inject_Z d <= 1)%Q.
Proof.
  intros Hx Hd.
  assert (0 < inject_Z d)%Q as Hdq.
  { change 0%Q with (inject_Z 0). by rewrite <-Zlt_Qlt. }
  split.
  - apply Qle_shift_div_l; [done|]. rewrite Qmult_0_l.
    change 0%Q with (inject_Z 0). rewrite <-Zle_Qle. lia.
  - apply Qle_shift_div_r; [done|]. rewrite Qmult_1_l.
    rewrite <-Zle_Qle. lia.
Qed.

Lemma scaled_sizes_linear (ns : list (string * Z)) (lo hi : Z) :
  lo ≠ hi →
  rmapM (λ p : string * Z,
         do q <~ py_div (inject_Z (p.2 - lo)) (inject_Z (hi - lo));
         Ok (p.1, (inject_Z min_size + q * inject_Z (max_size - min_size))%Q))
        ns
  = Ok ((λ p, (p.1, linear_size lo hi p.2)) <$> ns).
Proof.
  intros Hne. induction ns as [|p ns IH]; [done|].
  simpl. rewrite py_div_Ok by lia. simpl. rewrite IH. done.
Qed.

(** C9: the normalization never raises (no division by zero); when all
    aggregates are equal every node gets the midpoint 1650; otherwise a node
    with aggregate [c] gets 300 + (c - lo) / (hi - lo) * 2700, where [lo] and
    [hi] are the least and the greatest aggregate, so the sizes lie in
    [300, 3000], the least aggregate gets 300 and the greatest 3000. *)
Theorem scaled_sizes_spec (ns : list (string * Z)) :
  ∃ out,
    scaled_sizes ns = Ok out ∧
    out.*1 = ns.*1 ∧
    (∀ node s, (node, s) ∈ out →
               (inject_Z min_size <= s <= inject_Z max_size)%Q) ∧
    ((∀ p q, p ∈ ns → q ∈ ns → p.2 = q.2) →
     ∀ node s, (node, s) ∈ out → s == 1650) ∧
    (∀ lo hi,
       lo ∈ ns.*2 → hi ∈ ns.*2 → (∀ c, c ∈ ns.*2 → lo ≤ c ≤ hi) → lo ≠ hi →
       out = (λ p, (p.1, linear_size lo hi p.2)) <$> ns ∧
       (∀ node, (node, lo) ∈ ns → ∃ s, (node, s) ∈ out ∧ s == 300) ∧
       (∀ node, (node, hi) ∈ ns → ∃ s, (node, s) ∈ out ∧ s == 3000)).
Proof.
  unfold scaled_sizes. destruct ns as [|[n0 c0] ns'] eqn:Hns.
  { exists []. split_and!; try done.
    - intros node s ?%elem_of_nil. done.
    - intros _ node s ?%elem_of_nil. done.
    - intros lo hi ?%elem_of_nil. done. }
  rewrite <-Hns. set (cs := snd <$> ns').
  assert (ns.*2 = c0 :: cs) as Hcounts by (by rewrite Hns).
  rewrite Hcounts.
  destruct (foldl_min_spec c0 cs) as [Hmin_in Hmin].
  destruct (foldl_max_spec c0 cs) as [Hmax_in Hmax].
  set (min_count := foldl Z.min c0 cs) in *.
  set (max_count := foldl Z.max c0 cs) in *.
  destruct (max_count =? min_count) eqn:Heq.
  - apply Z.eqb_eq in Heq.
    exists ((λ p, (p.1, (inject_Z (min_size + max_size) / 2)%Q)) <$> ns).
    split_and!.
    + done.
    + by rewrite <-list_fmap_compose.
    + intros node s (p & [= -> ->] & _)%list_elem_of_fmap. by vm_compute.
    + intros _ node s (p & [= -> ->] & _)%list_elem_of_fmap. by vm_compute.
    + intros lo hi Hlo Hhi Hall Hne. exfalso.
      pose proof (Hmin lo Hlo). pose proof (Hmax hi Hhi).
      pose proof (Hall min_count Hmin_in). pose proof (Hall max_count Hmax_in).
      lia.
  - apply Z.eqb_neq in Heq.
    rewrite scaled_sizes_linear by done.
    exists ((λ p, (p.1, linear_size min_count max_count p.2)) <$> ns).
    assert (min_count < max_count) as Hlt.
    { pose proof (Hmax min_count Hmin_in). lia. }
    assert (∀ c, c ∈ c0 :: cs →
              (inject_Z min_size <= linear_size min_count max_count c
               <= inject_Z max_size)%Q) as Hrange.
    { intros c Hc. unfold linear_size.
      pose proof (ratio_bounds (c - min_count) (max_count - min_count)) as Hr.
      specialize (Hr ltac:(pose proof (Hmin c Hc); pose proof (Hmax c Hc); lia)
                     ltac:(lia)).
      change (inject_Z min_size) with (300 # 1)%Q.
      change (inject_Z max_size) with (3000 # 1)%Q.
      change (inject_Z (max_size - min_size)) with (2700 # 1)%Q.
      set (q := (inject_Z (c - min_count) / inject_Z (max_count - min_count))%Q)
        in *.
      lra. }
    split_and!.
    + done.
    + by rewrite <-list_fmap_compose.
    + intros node s (p & [= -> ->] & Hp)%list_elem_of_fmap.
      apply Hrange. rewrite <-Hcounts. apply list_elem_of_fmap. by exists p.
    + intros Hall node s _. exfalso.
      rewrite <-Hcounts in Hmin_in, Hmax_in.
      apply list_elem_of_fmap in Hmin_in as (p & Hp1 & Hp).
      apply list_elem_of_fmap in Hmax_in as (q & Hq1 & Hq).
      specialize (Hall p q Hp Hq). lia.
    + intros lo hi Hlo Hhi Hall Hne.
      assert (lo = min_count) as ->.
      { pose proof (Hmin lo Hlo). pose proof (Hall min_count Hmin_in). lia. }
      assert (hi = max_count) as ->.
      { pose proof (Hmax hi Hhi). pose proof (Hall max_count Hmax_in). lia. }
      split_and!; [done|..].
      * intros node Hnode. exists (linear_size min_count max_count min_count).
        split; [apply list_elem_of_fmap; by exists (node, min_count)|].
        unfold linear_size. rewrite Z.sub_diag.
        change (inject_Z 0) with 0%Q. unfold Qdiv. rewrite !Qmult_0_l.
        by vm_compute.
      * intros node Hnode. exists (linear_size min_count max_count max_count).
        split; [apply list_elem_of_fmap; by exists (node, max_count)|].
        unfold linear_size, Qdiv. rewrite Qmult_inv_r.
        -- by vm_compute.
        -- intros H0. unfold Qeq in H0. simpl in H0. lia.
Qed.

(** C9 at the aggregates X:10, Y:10. *)
Lemma scaled_sizes_spec_witness :
  ∃ out, scaled_sizes [("X", 10); ("Y", 10)] = Ok out ∧
         ∀ node s, (node, s) ∈ out → s == 1650.
Proof.
  destruct (scaled_sizes_spec [("X", 10); ("Y", 10)])
    as (out & Hout & _ & _ & Hmid & _).
  exists out. split; [done|]. apply Hmid.
  intros p q Hp Hq.
  apply elem_of_cons in Hp as [->|Hp]; [|apply list_elem_of_singleton in Hp as ->];
  (apply elem_of_cons in Hq as [->|Hq]; [|apply list_elem_of_singleton in Hq as ->]);
  reflexivity.
Defined.

Example scaled_sizes_equal :
  scaled_sizes [("X", 10); ("Y", 10)] = Ok [("X", 3300 # 2); ("Y", 3300 # 2)].
Proof. reflexivity. Qed.

(** ** The miner *)

Lemma StronglySorted_sublist {A : Type} (R : relation A) (l1 l2 : list A) :
  l1 `sublist_of` l2 → StronglySorted R l2 → StronglySorted R l1.
Proof.
  induction 1 as [|x l1 l2 Hsub IH|x l1 l2 Hsub IH]; intros Hs.
  - constructor.
  - apply StronglySorted_inv in Hs as [Hs Hall]. constructor; [by apply IH|].
    apply Forall_forall. intros y Hy. eapply Forall_forall in Hall; [done|].
    by eapply sublist_subseteq.
  - apply StronglySorted_inv in Hs as [Hs _]. by apply IH.
Qed.

Lemma StronglySorted_seq (a n : nat) : StronglySorted lt (seq a n).
Proof.
  revert a. induction n as [|n IH]; intros a; simpl; [constructor|].
  constructor; [apply IH|].
  apply Forall_forall. intros y Hy%elem_of_seq. lia.
Qed.

Lemma canonical_sublist (m k : nat) (c c' : list nat) :
  c' `sublist_of` c → canonical m k c → canonical m (length c') c'.
Proof.
  intros Hsub (Hs & Hb & _). split_and!; [| |done].
  - by eapply StronglySorted_sublist.
  - eapply Forall_forall. intros j Hj. eapply Forall_forall in Hb; [done|].
    by eapply sublist_subseteq.
Qed.

Lemma canonical_length_le (m k : nat) (c : list nat) :
  canonical m k c → (k ≤ m)%nat.
Proof.
  intros (Hs & Hb & <-).
  assert (NoDup c) as Hnd.
  { clear Hb. induction Hs as [|x l Hs IH Hall]; constructor; [|done].
    intros Hin. eapply Forall_forall in Hall; [|done]. lia. }
  assert (c ⊆+ seq 0 m) as Hsub.
  { apply NoDup_submseteq; [done|]. intros j Hj.
    eapply Forall_forall in Hb; [|done]. apply elem_of_seq. lia. }
  apply submseteq_length in Hsub. by rewrite length_seq in Hsub.
Qed.

Section miner.
Variable X : list (list bool).
Variable m : nat.
Variable ms : Q.

Lemma covers_subseteq (r : list bool) (c c' : list nat) :
  c' ⊆ c → covers r c → covers r c'.
Proof.
  unfold covers. rewrite !forallb_True, !Forall_forall. intros Hsub Hc j Hj.
  apply Hc. by apply Hsub.
Qed.

Lemma length_filter_mono {A : Type} (P Q : A → Prop)
  `{∀ x, Decision (P x)} `{∀ x, Decision (Q x)} (l : list A) :
  (∀ x, x ∈ l → P x → Q x) →
  (length (filter P l) ≤ length (filter Q l))%nat.
Proof.
  induction l as [|x l IH]; intros HPQ; [done|].
  rewrite !filter_cons.
  assert (length (filter P l) ≤ length (filter Q l))%nat as Hl.
  { apply IH. intros y Hy. apply HPQ. by right. }
  destruct (decide (P x)) as [HP|HP].
  - rewrite decide_True by (apply HPQ; [by left|done]). simpl. lia.
  - destruct (decide (Q x)); simpl; lia.
Qed.

Lemma support_count_anti (c c' : list nat) :
  c' ⊆ c → (support_count X c ≤ support_count X c')%nat.
Proof.
  intros Hsub. unfold support_count. apply length_filter_mono.
  intros r _. by apply covers_subseteq.
Qed.

Lemma support_of_anti (c c' : list nat) :
  c' ⊆ c → (support_of X c <= support_of X c')%Q.
Proof.
  intros Hsub%support_count_anti. unfold support_of, Qdiv.
  apply Qmult_le_compat_r.
  - rewrite <-Zle_Qle. lia.
  - apply Qinv_le_0_compat. change 0%Q with (inject_Z 0).
    rewrite <-Zle_Qle. lia.
Qed.

Lemma is_frequent_anti (c c' : list nat) :
  c' ⊆ c → is_frequent X ms c → is_frequent X ms c'.
Proof.
  unfold is_frequent. rewrite !Is_true_true, !Qle_bool_iff.
  intros Hsub Hc. eapply Qle_trans; [done|]. by apply support_of_anti.
Qed.

Lemma frequent_1_ok : level_ok X m ms 1 (frequent_1 X m ms).
Proof.
  intros c. unfold frequent_1. rewrite list_elem_of_filter, list_elem_of_fmap.
  split.
  - intros [Hf (j & -> & Hj%elem_of_seq)]. split; [|done].
    split_and!; [repeat constructor|repeat constructor; lia|done].
  - intros [(Hs & Hb & Hlen) Hf]. split; [done|].
    destruct c as [|j [|??]]; try done. exists j. split; [done|].
    apply Forall_cons in Hb as [Hj _]. apply elem_of_seq. lia.
Qed.

Lemma join_pair_Some (a b c : list nat) :
  join_pair a b = Some c ↔
  ∃ p x y, a = p ++ [x] ∧ b = p ++ [y] ∧ (x < y)%nat ∧ c = p ++ [x; y].
Proof.
  unfold join_pair. split.
  - destruct (last a) as [x|] eqn:Ha; [|done].
    destruct (last b) as [y|] eqn:Hb; [|done].
    apply last_Some in Ha as [p ->]. apply last_Some in Hb as [q ->].
    case_decide as Hd; [|done]. intros [= <-]. destruct Hd as [Hp Hxy].
    rewrite !length_app in Hp. simpl in Hp.
    rewrite !Nat.add_1_r in Hp. simpl in Hp.
    rewrite !take_app_length in Hp. subst q.
    exists p, x, y. by rewrite <-app_assoc.
  - intros (p & x & y & -> & -> & Hxy & ->).
    rewrite !last_snoc. rewrite decide_True.
    + by rewrite <-app_assoc.
    + rewrite !length_app. simpl. rewrite !Nat.add_1_r. simpl.
      by rewrite !take_app_length.
Qed.

Lemma join_sound (k : nat) (a b c : list nat) :
  canonical m k a → canonical m k b → join_pair a b = Some c →
  canonical m (S k) c.
Proof.
  intros (Hsa & Hba & Hla) (Hsb & Hbb & Hlb)
         (p & x & y & -> & -> & Hxy & ->)%join_pair_Some.
  replace (p ++ [x; y]) with ((p ++ [x]) ++ [y]) by (by rewrite <-app_assoc).
  split_and!.
  - apply StronglySorted_app_2; [|done|repeat constructor].
    intros x1 x2 [Hx1| ->%list_elem_of_singleton]%elem_of_app
           ->%list_elem_of_singleton; [|done].
    eapply (StronglySorted_app_1_elem_of _ p [y]); [done..|by left].
  - apply Forall_app. split; [done|]. apply Forall_app in Hbb as [_ Hy]. done.
  - rewrite length_app. simpl. lia.
Qed.

Lemma sublist_is_frequent (k : nat) (c c' : list nat) :
  c' `sublist_of` c → canonical m k c → is_frequent X ms c →
  canonical m (length c') c' ∧ is_frequent X ms c'.
Proof.
  intros Hsub Hc Hf. split; [by eapply canonical_sublist|].
  eapply is_frequent_anti; [|done]. by apply sublist_subseteq.
Qed.

Lemma next_level_ok (k : nat) (L : list (list nat)) :
  (1 ≤ k)%nat → level_ok X m ms k L → level_ok X m ms (S k) (next_level X ms L).
Proof.
  intros Hk HL c. unfold next_level, prune_step, join_step.
  rewrite !list_elem_of_filter, list_elem_of_bind. split.
  - intros (Hf & _ & a & (b & Hb & Hj)%list_elem_of_omap & Ha).
    split; [|done]. apply HL in Ha as [Ha _]. apply HL in Hb as [Hb _].
    exact (join_sound k a b c Ha Hb Hj).
  - intros [Hc Hf]. split; [done|].
    assert (∀ c', c' `sublist_of` c → length c' = k → c' ∈ L) as Hsub.
    { intros c' Hc' Hlen. apply HL. rewrite <-Hlen.
      by eapply sublist_is_frequent. }
    pose proof Hc as (Hs & Hb & Hlen).
    destruct c as [|y c0 _] using rev_ind; [done|].
    rewrite length_app in Hlen. simpl in Hlen.
    destruct c0 as [|x p _] using rev_ind; [simpl in Hlen; lia|].
    rewrite length_app in Hlen. simpl in Hlen.
    split.
    + apply Forall_forall. intros i Hi%elem_of_seq. apply Hsub.
      * apply sublist_delete.
      * rewrite length_delete.
        -- rewrite !length_app. simpl. lia.
        -- apply lookup_lt_is_Some. lia.
    + exists (p ++ [x]). split.
      * apply list_elem_of_omap. exists (p ++ [y]). split.
        -- apply Hsub; [|rewrite length_app; simpl; lia].
           rewrite <-app_assoc. apply sublist_app; [done|].
           apply sublist_cons. done.
        -- apply join_pair_Some. exists p, x, y. split_and!; [done..| |].
           ++ apply (StronglySorted_app_1_elem_of _ (p ++ [x]) [y]);
                [done| |by left].
              apply elem_of_app. right. by left.
           ++ by rewrite <-app_assoc.
      * apply Hsub; [|rewrite length_app; simpl; lia].
        by apply sublist_inserts_r.
Qed.

Lemma level_empty_above (k j : nat) (L : list (list nat)) (c : list nat) :
  level_ok X m ms k L → L = [] → (k ≤ j)%nat → canonical m j c →
  is_frequent X ms c → False.
Proof.
  intros HL -> Hkj Hc Hf.
  assert (take k c ∈ []) as Hin; [|by apply elem_of_nil in Hin].
  apply HL. destruct (sublist_is_frequent j c (take k c)) as [Hc' Hf'];
    [apply sublist_take|done..|].
  split; [|done]. destruct Hc as (_ & _ & Hlen).
  rewrite length_take in Hc'. by replace (k `min` length c)%nat with k in Hc' by lia.
Qed.

Lemma apriori_levels_spec (fuel k : nat) (L : list (list nat)) (c : list nat) :
  (1 ≤ k)%nat → level_ok X m ms k L →
  c ∈ apriori_levels X ms fuel L ↔
  ∃ j, (k ≤ j < k + fuel)%nat ∧ canonical m j c ∧ is_frequent X ms c.
Proof.
  revert k L. induction fuel as [|fuel IH]; intros k L Hk HL; simpl.
  { split; [by intros ?%elem_of_nil|]. intros (j & ? & _). lia. }
  destruct L as [|c0 L'] eqn:HLeq.
  { split; [by intros ?%elem_of_nil|]. intros (j & Hj & Hc & Hf).
    exfalso. eapply (level_empty_above k j []); [done..|lia|done|done]. }
  rewrite <-HLeq in *. clear HLeq.
  rewrite elem_of_app, (IH (S k) _ ltac:(lia) (next_level_ok k L Hk HL)).
  rewrite (HL c). split.
  - intros [[Hc Hf]|(j & Hj & Hc & Hf)]; [exists k|exists j];
      (split; [lia|done]).
  - intros (j & Hj & Hc & Hf). destruct (decide (j = k)) as [->|Hne].
    + by left.
    + right. exists j. split; [lia|done].
Qed.

(** The levels together: every non-empty ascending list of column indices
    that is frequent, and nothing else. *)
Lemma apriori_levels_exact (c : list nat) :
  c ∈ apriori_levels X ms m (frequent_1 X m ms) ↔
  c ≠ [] ∧ StronglySorted lt c ∧ Forall (λ j, (j < m)%nat) c
  ∧ is_frequent X ms c.
Proof.
  rewrite (apriori_levels_spec m 1 _ c ltac:(lia) frequent_1_ok). split.
  - intros (j & Hj & (Hs & Hb & Hlen) & Hf). split_and!; try done.
    intros ->. simpl in Hlen. lia.
  - intros (Hne & Hs & Hb & Hf). exists (length c).
    assert (canonical m (length c) c) as Hc by done.
    split_and!; try done.
    + destruct c; [done|simpl; lia].
    + apply canonical_length_le in Hc. lia.
Qed.

Lemma NoDup_omap_inj {A B : Type} (f : A → option B) (l : list A) :
  (∀ x1 x2 y, x1 ∈ l → x2 ∈ l → f x1 = Some y → f x2 = Some y → x1 = x2) →
  NoDup l → NoDup (omap f l).
Proof.
  intros Hinj. induction 1 as [|x l Hx Hnd IH]; simpl; [constructor|].
  assert (NoDup (omap f l)) as Hl.
  { apply IH. intros x1 x2 y H1 H2. apply Hinj; by right. }
  destruct (f x) as [y|] eqn:Hy; [|done]. constructor; [|done].
  intros (x' & Hx' & Hy')%list_elem_of_omap. apply Hx.
  replace x with x'; [done|]. apply (Hinj x' x y); [by right|by left|done..].
Qed.

Lemma join_pair_inj (a b a' b' c : list nat) :
  join_pair a b = Some c → join_pair a' b' = Some c → a = a' ∧ b = b'.
Proof.
  intros (p & x & y & -> & -> & _ & ->)%join_pair_Some
         (p' & x' & y' & -> & -> & _ & Heq)%join_pair_Some.
  apply app_inj_2 in Heq as [-> [= -> ->]]; done.
Qed.

Lemma NoDup_join_step (L : list (list nat)) : NoDup L → NoDup (join_step L).
Proof.
  intros Hnd. unfold join_step. apply NoDup_bind; [| |done].
  - intros a a' c _ _ (b & _ & Hb)%list_elem_of_omap
           (b' & _ & Hb')%list_elem_of_omap.
    by destruct (join_pair_inj a b a' b' c Hb Hb').
  - intros a _. apply NoDup_omap_inj; [|done].
    intros b b' c _ _ Hb Hb'. by destruct (join_pair_inj a b a b' c Hb Hb').
Qed.

Lemma NoDup_next_level (L : list (list nat)) :
  NoDup L → NoDup (next_level X ms L).
Proof.
  intros Hnd. unfold next_level, prune_step.
  by do 2 apply NoDup_filter; apply NoDup_join_step.
Qed.

Lemma NoDup_frequent_1 : NoDup (frequent_1 X m ms).
Proof.
  unfold frequent_1. apply NoDup_filter, NoDup_fmap_2; [|apply NoDup_seq].
  by intros j1 j2 [= ->].
Qed.

Lemma NoDup_apriori_levels_from (fuel k : nat) (L : list (list nat)) :
  (1 ≤ k)%nat → level_ok X m ms k L → NoDup L →
  NoDup (apriori_levels X ms fuel L).
Proof.
  revert k L. induction fuel as [|fuel IH]; intros k L Hk HL Hnd; simpl;
    [constructor|].
  destruct L as [|c0 L'] eqn:HLeq; [constructor|].
  rewrite <-HLeq in *. clear HLeq. apply NoDup_app. split_and!; [done| |].
  - intros c [(_ & _ & Hlen) _]%HL
           (j & Hj & (_ & _ & Hlen') & _)%(apriori_levels_spec fuel (S k));
      [lia|lia|by apply next_level_ok].
  - apply (IH (S k)); [lia|by apply next_level_ok|by apply NoDup_next_level].
Qed.

Lemma NoDup_apriori_levels :
  NoDup (apriori_levels X ms m (frequent_1 X m ms)).
Proof.
  apply (NoDup_apriori_levels_from m 1);
    [lia|apply frequent_1_ok|apply NoDup_frequent_1].
Qed.

End miner.

Lemma true_support_same_items (T : list (list string)) (I I' : list string) :
  same_items I I' → true_support T I = true_support T I'.
Proof.
  intros [H1 H2]. unfold true_support. do 4 f_equal.
  apply list_filter_iff. intros t. split; intros Hsub x Hx; auto.
Qed.

Lemma true_support_anti (T : list (list string)) (I I' : list string) :
  I' ⊆ I → (true_support T I <= true_support T I')%Q.
Proof.
  intros Hsub. unfold true_support, Qdiv. apply Qmult_le_compat_r.
  - rewrite <-Zle_Qle. apply inj_le. apply length_filter_mono.
    intros t _ Ht x Hx. auto.
  - apply Qinv_le_0_compat. change 0%Q with (inject_Z 0).
    rewrite <-Zle_Qle. lia.
Qed.

Lemma true_support_pos (T : list (list string)) (I : list string) :
  (0 < true_support T I)%Q → ∃ t, t ∈ T ∧ I ⊆ t.
Proof.
  unfold true_support. intros Hpos.
  destruct (filter (λ t, I ⊆ t) T) as [|t l] eqn:Hf.
  - exfalso. simpl in Hpos. unfold Qdiv in Hpos. rewrite Qmult_0_l in Hpos.
    by apply Qlt_irrefl in Hpos.
  - assert (t ∈ filter (λ t, I ⊆ t) T) as Hin by (rewrite Hf; left).
    apply list_elem_of_filter in Hin as [Hsub Hin]. by exists t.
Qed.

Lemma elem_of_concat {A : Type} (ls : list (list A)) (x : A) :
  x ∈ concat ls ↔ ∃ l, l ∈ ls ∧ x ∈ l.
Proof.
  induction ls as [|l ls IH]; simpl.
  { split; [by intros ?%elem_of_nil|]. by intros (l & ?%elem_of_nil & _). }
  rewrite elem_of_app, IH. split.
  - intros [Hx|(l' & Hl' & Hx)]; [exists l|exists l']; split; try done;
      [by left|by right].
  - intros (l' & [->|Hl']%elem_of_cons & Hx); [by left|right; by exists l'].
Qed.

Section encoded.
Variable T : list (list string).

Lemma elem_of_te_fit (x : string) : x ∈ te_fit T ↔ ∃ t, t ∈ T ∧ x ∈ t.
Proof.
  unfold te_fit. rewrite elem_of_sorted, elem_of_drop_duplicates.
  apply elem_of_concat.
Qed.

Lemma NoDup_te_fit : NoDup (te_fit T).
Proof.
  unfold te_fit, sorted. rewrite merge_sort_Permutation.
  apply NoDup_drop_duplicates.
Qed.

Lemma row_has_transform (cols t : list string) (j : nat) (x : string) :
  cols !! j = Some x →
  row_has ((λ c, bool_decide (c ∈ t)) <$> cols) j = bool_decide (x ∈ t).
Proof. intros Hj. unfold row_has. by rewrite list_lookup_fmap, Hj. Qed.

Lemma covers_labels (cols t : list string) (c : list nat) :
  Forall (λ j, (j < length cols)%nat) c →
  covers ((λ c, bool_decide (c ∈ t)) <$> cols) c ↔ labels cols c ⊆ t.
Proof.
  intros Hb. unfold covers, labels. rewrite forallb_True, Forall_forall. split.
  - intros Hc x (j & -> & Hj)%list_elem_of_fmap.
    eapply Forall_forall in Hb; [|done].
    apply lookup_lt_is_Some in Hb as [y Hy]. rewrite Hy. simpl.
    specialize (Hc j Hj). rewrite (row_has_transform cols t j y Hy) in Hc.
    by apply bool_decide_unpack in Hc.
  - intros Hsub j Hj. pose proof Hj as Hj'.
    eapply Forall_forall in Hb; [|done].
    apply lookup_lt_is_Some in Hb as [y Hy].
    rewrite (row_has_transform cols t j y Hy). apply bool_decide_pack.
    apply Hsub. apply list_elem_of_fmap. exists j. by rewrite Hy.
Qed.

Lemma support_count_labels (cols : list string) (c : list nat) :
  Forall (λ j, (j < length cols)%nat) c →
  support_count (te_transform cols T) c
  = length (filter (λ t, labels cols c ⊆ t) T).
Proof.
  intros Hb. unfold support_count, te_transform.
  induction T as [|t T' IH]; [done|].
  rewrite fmap_cons, !filter_cons.
  pose proof (covers_labels cols t c Hb) as Hcov.
  destruct (decide (labels cols c ⊆ t)) as [Hyes|Hno].
  - rewrite decide_True by (by apply Hcov). simpl. by rewrite IH.
  - rewrite decide_False by (by rewrite Hcov). done.
Qed.

Lemma support_of_labels (cols : list string) (c : list nat) :
  Forall (λ j, (j < length cols)%nat) c →
  support_of (te_transform cols T) c = true_support T (labels cols c).
Proof.
  intros Hb. unfold support_of, true_support.
  rewrite support_count_labels by done.
  unfold te_transform. by rewrite length_fmap.
Qed.

End encoded.

Lemma StronglySorted_lt_NoDup (c : list nat) : StronglySorted lt c → NoDup c.
Proof.
  induction 1 as [|x l Hs IH Hall]; constructor; [|done].
  intros Hin. eapply Forall_forall in Hall; [|done]. lia.
Qed.

Lemma elem_of_labels (cols : list string) (c : list nat) (x : string) :
  Forall (λ j, (j < length cols)%nat) c →
  x ∈ labels cols c ↔ ∃ j, j ∈ c ∧ cols !! j = Some x.
Proof.
  intros Hb. unfold labels. rewrite list_elem_of_fmap. split.
  - intros (j & -> & Hj). exists j. split; [done|].
    eapply Forall_forall in Hb; [|done].
    apply lookup_lt_is_Some in Hb as [y Hy]. by rewrite Hy.
  - intros (j & Hj & Hx). exists j. by rewrite Hx.
Qed.

Lemma NoDup_labels (cols : list string) (c : list nat) :
  NoDup cols → NoDup c → Forall (λ j, (j < length cols)%nat) c →
  NoDup (labels cols c).
Proof.
  intros Hcols Hc Hb. apply NoDup_fmap_2_strong; [|done].
  intros j1 j2 Hj1 Hj2 Heq.
  pose proof Hb as Hb'.
  eapply Forall_forall in Hb; [|exact Hj1].
  eapply Forall_forall in Hb'; [|exact Hj2].
  apply lookup_lt_is_Some in Hb as [y1 Hy1].
  apply lookup_lt_is_Some in Hb' as [y2 Hy2].
  rewrite Hy1, Hy2 in Heq. simpl in Heq. subst y2.
  exact (proj1 (NoDup_alt cols) Hcols j1 j2 y1 Hy1 Hy2).
Qed.

Lemma elem_of_apriori (T : list (list string)) (ms : Q) (e : itemset_row) :
  e ∈ apriori (df_transformed T) ms ↔
  ∃ c, c ≠ [] ∧ StronglySorted lt c
       ∧ Forall (λ j, (j < length (te_fit T))%nat) c
       ∧ (ms <= true_support T (labels (te_fit T) c))%Q
       ∧ e = {| itemset_support := true_support T (labels (te_fit T) c);
                itemsets := labels (te_fit T) c |}.
Proof.
  unfold apriori, df_transformed. cbn [te_ary columns_].
  rewrite list_elem_of_fmap. split.
  - intros (c & -> & (Hne & Hs & Hb & Hf)%apriori_levels_exact).
    exists c. unfold is_frequent in Hf.
    apply Is_true_true, Qle_bool_iff in Hf.
    rewrite support_of_labels in Hf |- * by done. done.
  - intros (c & Hne & Hs & Hb & Hf & ->). exists c. split.
    + by rewrite support_of_labels.
    + apply apriori_levels_exact. split_and!; [done..|].
      unfold is_frequent. apply Is_true_true, Qle_bool_iff.
      by rewrite support_of_labels.
Qed.

(** Soundness of the miner: what it returns is a non-empty set of items of
    the transactions, carries its support, and meets the threshold. *)
Lemma apriori_sound (T : list (list string)) (ms : Q) (e : itemset_row) :
  e ∈ apriori (df_transformed T) ms →
  itemsets e ≠ [] ∧ NoDup (itemsets e) ∧ itemsets e ⊆ te_fit T ∧
  itemset_support e = true_support T (itemsets e) ∧
  (ms <= itemset_support e)%Q.
Proof.
  intros (c & Hne & Hs & Hb & Hf & ->)%elem_of_apriori. cbn. split_and!.
  - destruct c; [done|]. done.
  - apply NoDup_labels; [apply NoDup_te_fit|by apply StronglySorted_lt_NoDup|done].
  - intros x (j & _ & Hx)%elem_of_labels; [|done].
    by eapply list_elem_of_lookup_2.
  - done.
  - done.
Qed.

(** Completeness of the miner over the items of the transactions. *)
Lemma apriori_complete (T : list (list string)) (ms : Q) (I : list string) :
  I ≠ [] → I ⊆ te_fit T → (ms <= true_support T I)%Q →
  ∃ e, e ∈ apriori (df_transformed T) ms ∧ same_items (itemsets e) I
       ∧ itemset_support e = true_support T I.
Proof.
  intros Hne Hsub Hf.
  set (c := filter (λ j, default "" (te_fit T !! j) ∈ I)
                   (seq 0 (length (te_fit T)))).
  assert (Forall (λ j, (j < length (te_fit T))%nat) c) as Hb.
  { apply Forall_forall. intros j [_ Hj%elem_of_seq]%list_elem_of_filter. lia. }
  assert (same_items (labels (te_fit T) c) I) as Hsame.
  { split; intros x Hx.
    - apply elem_of_labels in Hx as (j & [Hin _]%list_elem_of_filter & Hj);
        [|done]. by rewrite Hj in Hin.
    - apply elem_of_labels; [done|].
      destruct (proj1 (list_elem_of_lookup _ _) (Hsub x Hx)) as [j Hj].
      exists j. split; [|done]. apply list_elem_of_filter. split.
      + by rewrite Hj.
      + apply elem_of_seq. apply lookup_lt_Some in Hj. lia. }
  exists {| itemset_support := true_support T (labels (te_fit T) c);
            itemsets := labels (te_fit T) c |}.
  split_and!; [|done|by apply true_support_same_items].
  apply elem_of_apriori. exists c. split_and!; [| | done | | done].
  - intros Hc. destruct I as [|x I']; [done|].
    destruct Hsame as [_ Hsame]. specialize (Hsame x ltac:(left)).
    rewrite Hc in Hsame. by apply elem_of_nil in Hsame.
  - eapply StronglySorted_sublist; [apply sublist_filter|apply StronglySorted_seq].
  - by rewrite (true_support_same_items T _ I).
Qed.

Lemma labels_same_items_inj (cols : list string) (c1 c2 : list nat) :
  NoDup cols →
  StronglySorted lt c1 → StronglySorted lt c2 →
  Forall (λ j, (j < length cols)%nat) c1 →
  Forall (λ j, (j < length cols)%nat) c2 →
  same_items (labels cols c1) (labels cols c2) → c1 = c2.
Proof.
  intros Hcols Hs1 Hs2 Hb1 Hb2 [H12 H21].
  assert (∀ c c', Forall (λ j, (j < length cols)%nat) c →
                  Forall (λ j, (j < length cols)%nat) c' →
                  labels cols c ⊆ labels cols c' → c ⊆ c') as Hsub.
  { intros c c' Hb Hb' Hl j Hj.
    pose proof Hb as Hlt. eapply Forall_forall in Hlt; [|exact Hj].
    apply lookup_lt_is_Some in Hlt as [x Hx].
    assert (x ∈ labels cols c') as Hin.
    { apply Hl. apply elem_of_labels; [done|]. by exists j. }
    apply elem_of_labels in Hin as (j' & Hj' & Hx'); [|done].
    by rewrite (proj1 (NoDup_alt cols) Hcols j j' x Hx Hx'). }
  assert (AntiSymm eq lt) as Hanti by (intros x y ? ?; lia).
  apply (StronglySorted_unique lt); [done..|].
  apply NoDup_Permutation; [by apply StronglySorted_lt_NoDup..|].
  intros j. split; by apply Hsub.
Qed.

(** The miner returns no itemset twice. *)
Lemma apriori_once (T : list (list string)) (ms : Q) (i j : nat)
  (e1 e2 : itemset_row) :
  apriori (df_transformed T) ms !! i = Some e1 →
  apriori (df_transformed T) ms !! j = Some e2 →
  same_items (itemsets e1) (itemsets e2) → i = j.
Proof.
  unfold apriori, df_transformed. cbn [te_ary columns_].
  intros (c1 & -> & Hc1)%list_lookup_fmap_Some
         (c2 & -> & Hc2)%list_lookup_fmap_Some Hsame.
  cbn [itemsets] in Hsame.
  pose proof (list_elem_of_lookup_2 _ _ _ Hc1) as Hin1.
  pose proof (list_elem_of_lookup_2 _ _ _ Hc2) as Hin2.
  apply apriori_levels_exact in Hin1 as (_ & Hs1 & Hb1 & _).
  apply apriori_levels_exact in Hin2 as (_ & Hs2 & Hb2 & _).
  assert (c1 = c2) as <-.
  { eapply (labels_same_items_inj (te_fit T)); [apply NoDup_te_fit|done..]. }
  exact (proj1 (NoDup_alt _) (NoDup_apriori_levels _ _ _) i j c1 Hc1 Hc2).
Qed.

Lemma frequent_items_in_columns (T : list (list string)) (ms : Q)
  (I : list string) :
  (0 < ms)%Q → (ms <= true_support T I)%Q → I ⊆ te_fit T.
Proof.
  intros Hms Hf.
  destruct (true_support_pos T I) as (t & Ht & Hsub).
  { eapply Qlt_le_trans; done. }
  intros x Hx. apply elem_of_te_fit. exists t. split; [done|]. by apply Hsub.
Qed.

(** C1: the miner returns exactly the non-empty itemsets whose support is at
    least min_support.  Every returned row holds a non-empty duplicate-free
    set of items with its true support, which meets the threshold; every
    non-empty set of items of the transactions whose support meets the
    threshold is returned, and with a positive threshold so is every
    non-empty set of items whatsoever; no itemset is returned twice. *)
Theorem apriori_exact (T : list (list string)) (ms : Q) :
  let frequent_itemsets := apriori (df_transformed T) ms in
  (∀ e, e ∈ frequent_itemsets →
        itemsets e ≠ [] ∧ NoDup (itemsets e) ∧
        itemset_support e = true_support T (itemsets e) ∧
        (ms <= true_support T (itemsets e))%Q) ∧
  (∀ I, I ≠ [] → (∀ x, x ∈ I → ∃ t, t ∈ T ∧ x ∈ t) →
        (ms <= true_support T I)%Q →
        ∃ e, e ∈ frequent_itemsets ∧ same_items (itemsets e) I
             ∧ itemset_support e = true_support T I) ∧
  ((0 < ms)%Q →
   ∀ I, I ≠ [] → (ms <= true_support T I)%Q →
        ∃ e, e ∈ frequent_itemsets ∧ same_items (itemsets e) I
             ∧ itemset_support e = true_support T I) ∧
  (∀ i j e1 e2,
     frequent_itemsets !! i = Some e1 → frequent_itemsets !! j = Some e2 →
     same_items (itemsets e1) (itemsets e2) → i = j).
Proof.
  intros frequent_itemsets. split_and!; [| | |apply apriori_once].
  - intros e (Hne & Hnd & _ & Hs & Hf)%apriori_sound.
    split_and!; [done..|]. by rewrite <-Hs.
  - intros I Hne Hitems Hf. apply apriori_complete; [done| |done].
    intros x Hx. apply elem_of_te_fit. by apply Hitems.
  - intros Hms I Hne Hf. apply apriori_complete; [done| |done].
    by eapply frequent_items_in_columns.
Qed.

(** C1 at [T_example] with threshold 3/10: the set {B, A} has support 2/3. *)
Lemma apriori_exact_witness :
  ∃ e, e ∈ apriori (df_transformed T_example) (3 # 10)
       ∧ same_items (itemsets e) ["B"; "A"]
       ∧ itemset_support e = true_support T_example ["B"; "A"].
Proof.
  apply (proj1 (proj2 (proj2 (apriori_exact T_example (3 # 10))))).
  - reflexivity.
  - done.
  - by vm_compute.
Defined.

Example apriori_example :
  apriori (df_transformed T_example) (3 # 10)
  = [ {| itemset_support := 3 # 3; itemsets := ["A"] |};
      {| itemset_support := 2 # 3; itemsets := ["B"] |};
      {| itemset_support := 1 # 3; itemsets := ["C"] |};
      {| itemset_support := 2 # 3; itemsets := ["A"; "B"] |};
      {| itemset_support := 1 # 3; itemsets := ["A"; "C"] |} ].
Proof. by vm_compute. Qed.

(** ** The rule generator *)

Lemma rmapM_Ok {A B : Type} (f : A → result B) (l : list A) (ys : list B) :
  rmapM f l = Ok ys ↔ Forall2 (λ x y, f x = Ok y) l ys.
Proof.
  revert ys. induction l as [|x l IH]; intros ys; simpl.
  - split; [intros [= <-]; constructor|]. by intros ->%Forall2_nil_inv_l.
  - split.
    + destruct (f x) as [y|] eqn:Hy; [|done]. simpl.
      destruct (rmapM f l) as [ys'|] eqn:Hys; [|done]. simpl.
      intros [= <-]. constructor; [done|]. by apply IH.
    + intros (y & ys' & Hy & Hys & ->)%Forall2_cons_inv_l.
      rewrite Hy. simpl. apply IH in Hys. rewrite Hys. done.
Qed.

Lemma rmapM_total {A B : Type} (f : A → result B) (l : list A) :
  (∀ x, x ∈ l → ∃ y, f x = Ok y) → ∃ ys, rmapM f l = Ok ys.
Proof.
  induction l as [|x l IH]; intros Hall; simpl; [by exists []|].
  destruct (Hall x ltac:(left)) as [y ->].
  destruct IH as [ys ->]; [intros z Hz; apply Hall; by right|].
  by exists (y :: ys).
Qed.

Lemma rmapM_elem_of {A B : Type} (f : A → result B) (l : list A)
  (ys : list B) (y : B) :
  rmapM f l = Ok ys → y ∈ ys → ∃ x, x ∈ l ∧ f x = Ok y.
Proof.
  intros HF%rmapM_Ok Hy.
  apply list_elem_of_lookup in Hy as [i Hi].
  destruct (Forall2_lookup_r _ _ _ _ _ HF Hi) as (x & Hx & Hfx).
  exists x. split; [by eapply list_elem_of_lookup_2|done].
Qed.

Lemma splits_spec {A : Type} (l a c : list A) :
  (a, c) ∈ splits l → a ++ c ≡ₚ l ∧ a `sublist_of` l ∧ c `sublist_of` l.
Proof.
  revert a c. induction l as [|x l IH]; intros a c; simpl.
  { intros [= -> ->]%list_elem_of_singleton. done. }
  intros ([a' c'] & Hac & Hin)%list_elem_of_bind.
  destruct (IH a' c' Hin) as (HP & Ha & Hc). simpl in Hac.
  apply elem_of_cons in Hac as [[= -> ->]|[= -> ->]%list_elem_of_singleton].
  - split_and!; [by constructor|by constructor|by constructor].
  - split_and!; [|by constructor|by constructor].
    rewrite <-Permutation_middle. by constructor.
Qed.

Lemma proper_splits_spec {A : Type} (l a c : list A) :
  (a, c) ∈ proper_splits l →
  a ≠ [] ∧ c ≠ [] ∧ a ++ c ≡ₚ l ∧ a `sublist_of` l ∧ c `sublist_of` l.
Proof.
  intros [[Ha Hc] Hin]%list_elem_of_filter.
  apply splits_spec in Hin as (HP & Hsa & Hsc). done.
Qed.

Section rules.
Variable T : list (list string).
Variable ms : Q.

Lemma support_lookup_Ok (S : list string) :
  S ≠ [] → S ⊆ te_fit T → (ms <= true_support T S)%Q →
  support_lookup (apriori (df_transformed T) ms) S = Ok (true_support T S).
Proof.
  intros Hne Hsub Hf. unfold support_lookup.
  destruct (apriori_complete T ms S Hne Hsub Hf) as (e & He & Hsame & _).
  destruct (list_find_elem_of (λ e, same_items (itemsets e) S) _ e He Hsame)
    as [[i e'] Hfind].
  rewrite Hfind. apply list_find_Some in Hfind as (Hi & Hsame' & _).
  apply list_elem_of_lookup_2 in Hi.
  apply apriori_sound in Hi as (_ & _ & _ & -> & _).
  by rewrite (true_support_same_items T _ S).
Qed.

(** What [make_rule] yields for a split [(A, C)] of a frequent itemset. *)
Lemma make_rule_spec (I : itemset_row) (A C : list string) :
  I ∈ apriori (df_transformed T) ms →
  (A, C) ∈ proper_splits (itemsets I) →
  ∃ r, make_rule (apriori (df_transformed T) ms) I A C = Ok r ∧
       antecedents r = A ∧ consequents r = C ∧
       support r = true_support T (A ++ C) ∧
       antecedent_support r = true_support T A ∧
       consequent_support r = true_support T C ∧
       confidence r = (true_support T (A ++ C) / true_support T A)%Q ∧
       (ms <= true_support T A)%Q.
Proof.
  intros HI (HA & HC & HP & HsA & HsC)%proper_splits_spec.
  pose proof HI as (_ & _ & Hcols & Hsup & Hf)%apriori_sound.
  apply sublist_subseteq in HsA, HsC.
  assert (true_support T (itemsets I) = true_support T (A ++ C)) as HAC.
  { apply true_support_same_items. split; intros x; by rewrite HP. }
  assert (ms <= true_support T A)%Q as HfA.
  { eapply Qle_trans; [exact Hf|]. rewrite Hsup. by apply true_support_anti. }
  assert (ms <= true_support T C)%Q as HfC.
  { eapply Qle_trans; [exact Hf|]. rewrite Hsup. by apply true_support_anti. }
  unfold make_rule.
  rewrite (support_lookup_Ok A), (support_lookup_Ok C);
    [|done|by etrans|done|done|by etrans|done].
  simpl. eexists. split; [done|]. cbn. rewrite Hsup, HAC. done.
Qed.

End rules.

(** The rule generator succeeds on the table of the miner, and every rule it
    retains was made from a split of a frequent itemset and meets the
    threshold. *)
Lemma association_rules_inv (T : list (list string)) (ms mc : Q) :
  ∃ rules,
    association_rules (apriori (df_transformed T) ms) mc = Ok rules ∧
    ∀ r, r ∈ rules →
         ∃ I A C, I ∈ apriori (df_transformed T) ms ∧
                  (A, C) ∈ proper_splits (itemsets I) ∧
                  make_rule (apriori (df_transformed T) ms) I A C = Ok r ∧
                  (mc <= confidence r)%Q.
Proof.
  unfold association_rules.
  set (freq := apriori (df_transformed T) ms).
  assert (∀ I, I ∈ freq → ∃ rs,
            rmapM (λ s, make_rule freq I s.1 s.2) (proper_splits (itemsets I))
            = Ok rs) as Htotal.
  { intros I HI. apply rmapM_total. intros [A C] Hs.
    destruct (make_rule_spec T ms I A C HI Hs) as (r & Hr & _). by exists r. }
  destruct (rmapM_total (rules_of_itemset freq mc)
              (filter (λ I, (2 ≤ length (itemsets I))%nat) freq)) as [rss Hrss].
  { intros I [_ HI]%list_elem_of_filter. unfold rules_of_itemset.
    destruct (Htotal I HI) as [rs ->]. simpl. by eexists. }
  rewrite Hrss. simpl. eexists. split; [done|].
  intros r (rs & Hrs & Hr)%elem_of_concat.
  destruct (rmapM_elem_of _ _ _ _ Hrss Hrs) as (I & [_ HI]%list_elem_of_filter & HrI).
  unfold rules_of_itemset in HrI.
  destruct (Htotal I HI) as [rs0 Hrs0]. rewrite Hrs0 in HrI. simpl in HrI.
  injection HrI as <-.
  apply list_elem_of_filter in Hr as [Hconf Hr].
  destruct (rmapM_elem_of _ _ _ _ Hrs0 Hr) as ([A C] & Hs & Hmk).
  exists I, A, C. split_and!; [done..|].
  by apply Is_true_true, Qle_bool_iff in Hconf.
Qed.

(** C2: the rule generator returns (raises nothing) on the table of frequent
    itemsets; every retained rule has a non-empty antecedent and consequent
    without a common item, its confidence is support(antecedent ∪
    consequent) divided by support(antecedent), the supports being the true
    ones (and the divisor positive when min_support is), and its confidence
    is at least min_confidence. *)
Theorem association_rules_confidence (T : list (list string)) (ms mc : Q) :
  ∃ rules,
    association_rules (apriori (df_transformed T) ms) mc = Ok rules ∧
    ∀ r, r ∈ rules →
         antecedents r ≠ [] ∧ consequents r ≠ [] ∧
         (∀ x, x ∈ antecedents r → x ∉ consequents r) ∧
         ((0 < ms)%Q → (0 < true_support T (antecedents r))%Q) ∧
         confidence r
         = (true_support T (antecedents r ++ consequents r)
            / true_support T (antecedents r))%Q ∧
         (mc <= confidence r)%Q.
Proof.
  destruct (association_rules_inv T ms mc) as (rules & Hrules & Hinv).
  exists rules. split; [done|]. intros r Hr.
  destruct (Hinv r Hr) as (I & A & C & HI & Hs & Hmk & Hconf).
  destruct (make_rule_spec T ms I A C HI Hs)
    as (r' & Hr' & HA & HC & _ & _ & _ & Hc & HfA).
  rewrite Hmk in Hr'. injection Hr' as <-.
  rewrite HA, HC.
  pose proof Hs as (HneA & HneC & HP & _)%proper_splits_spec.
  pose proof HI as (_ & Hnd & _)%apriori_sound.
  split_and!; [done|done| | |done|done].
  - intros x HxA HxC. rewrite <-HP in Hnd.
    apply NoDup_app in Hnd as (_ & Hdisj & _). by apply (Hdisj x).
  - intros Hms. eapply Qlt_le_trans; done.
Qed.

(** C2 at [T_example]: the rule B -> A. *)
Lemma association_rules_confidence_witness :
  ∃ rules r,
    association_rules (apriori (df_transformed T_example) (3 # 10)) (15 # 100)
    = Ok rules ∧ r ∈ rules ∧ antecedents r = ["B"] ∧ consequents r = ["A"] ∧
    confidence r
    = (true_support T_example (antecedents r ++ consequents r)
       / true_support T_example (antecedents r))%Q.
Proof.
  destruct (association_rules_confidence T_example (3 # 10) (15 # 100))
    as (rules & Hrules & Hall).
  exists rules. pose proof Hrules as Heq. vm_compute in Heq.
  injection Heq as <-. eexists. split; [done|].
  split; [by left|]. split; [reflexivity|]. split; [reflexivity|].
  apply Hall. by left.
Defined.

Example association_rules_example :
  (λ r, (antecedents r, consequents r, confidence r, conviction r))
  <$> default [] (match association_rules
                          (apriori (df_transformed T_example) (3 # 10)) (15 # 100)
                  with Ok rs => Some rs | Raise _ => None end)
  = [ (["B"], ["A"], 6 # 6, Infinity);
      (["A"], ["B"], 6 # 9, Finite (9 # 9));
      (["C"], ["A"], 3 # 3, Infinity);
      (["A"], ["C"], 3 # 9, Finite (18 # 18)) ].
Proof. vm_compute. reflexivity. Qed.

(** ** Untrimmed keys *)

Lemma dict_lookup_Some {K V : Type} `{Countable K} (l : list (K * V))
  (k : K) (v : V) :
  dict l !! k = Some v → (k, v) ∈ l.
Proof.
  induction l as [|[k0 v0] l IH] using rev_ind.
  { unfold dict. simpl. by rewrite lookup_empty. }
  rewrite dict_snoc, elem_of_app, list_elem_of_singleton.
  destruct (decide (k0 = k)) as [->|Hne].
  - rewrite lookup_insert_eq. intros [= ->]. by right.
  - rewrite lookup_insert_ne by done. intros Hl. left. by apply IH.
Qed.

Lemma dict_lookup_is_Some {K V : Type} `{Countable K} (l : list (K * V)) (k : K) :
  is_Some (dict l !! k) ↔ ∃ v, (k, v) ∈ l.
Proof.
  split.
  - intros [v Hv]. exists v. by apply dict_lookup_Some.
  - intros [v Hv]. induction l as [|[k0 v0] l IH] using rev_ind.
    { by apply elem_of_nil in Hv. }
    rewrite dict_snoc. destruct (decide (k0 = k)) as [->|Hne].
    + rewrite lookup_insert_eq. by eexists.
    + rewrite lookup_insert_ne by done. apply IH.
      apply elem_of_app in Hv as [Hv|[= -> ->]%list_elem_of_singleton]; done.
Qed.

Lemma item_bestell_map_is_Some (df : list df_row) (k : option string) :
  is_Some (item_bestell_map df !! k) ↔ ∃ r, r ∈ df ∧ item_column r = k.
Proof.
  unfold item_bestell_map, unique_items. rewrite dict_lookup_is_Some.
  setoid_rewrite elem_of_drop_duplicates. setoid_rewrite list_elem_of_fmap.
  split.
  - intros (v & r & [= -> ->] & Hr). by exists r.
  - intros (r & Hr & <-). exists (bestellnummer_column r), r. done.
Qed.

Lemma make_rule_items (freq : list itemset_row) (I : itemset_row)
  (A C : list string) (r : rule) :
  make_rule freq I A C = Ok r → antecedents r = A ∧ consequents r = C.
Proof.
  unfold make_rule. destruct (support_lookup freq A); [|done].
  destruct (support_lookup freq C); [|done]. simpl. by intros [= <-].
Qed.

Lemma assign_apply_axis1_Ok {A B : Type} (f : A → result B) (rows : list A)
  (ys : list B) :
  assign_apply_axis1 f rows = Ok ys → rmapM f rows = Ok ys.
Proof. by destruct rows. Qed.

Lemma annotate_Ok (dft : bool_frame) (m : gmap (option string) string)
  (r : rule) (row : annotated_rule) :
  annotate dft m r = Ok row →
  mined row = r ∧ Mat_combination row = get_mat_combination m r.
Proof.
  unfold annotate. destruct (combination_count_of dft r); [|done]. simpl.
  destruct (create_unique_8digit_id _); [|done]. simpl. by intros [= <-].
Qed.

(** The rows of the rule table hold rules over trimmed item names, and their
    Mat_combination is computed with the map of the run. *)
Lemma rules_table_rows (df : list df_row) (rules : list annotated_rule)
  (row : annotated_rule) :
  rules_table df = Ok rules → row ∈ rules →
  Mat_combination row = get_mat_combination (item_bestell_map df) (mined row) ∧
  ∀ item, item ∈ antecedents (mined row) ∨ item ∈ consequents (mined row) →
          ∃ r name, r ∈ df ∧ item_column r = Some name ∧ item = strip name.
Proof.
  unfold rules_table. destruct (transactions df) as [ts|] eqn:Hts; [|done].
  simpl. destruct (association_rules_inv ts min_support min_threshold)
    as (rs & Hrs & Hinv).
  rewrite Hrs. simpl. intros Hann%assign_apply_axis1_Ok Hrow.
  destruct (rmapM_elem_of _ _ _ _ Hann Hrow) as (r & Hr & Hrow').
  apply annotate_Ok in Hrow' as [-> HM]. split; [done|].
  destruct (Hinv r Hr) as (I & A & C & HI & Hs & Hmk & _).
  apply make_rule_items in Hmk as [-> ->].
  apply proper_splits_spec in Hs as (_ & _ & _ & HA & HC).
  apply sublist_subseteq in HA, HC.
  apply apriori_sound in HI as (_ & _ & Hcols & _).
  intros item Hitem.
  assert (item ∈ te_fit ts) as Hin by (destruct Hitem; auto).
  apply elem_of_te_fit in Hin as (t & Ht & Hin).
  apply transactions_Ok in Hts. subst ts.
  apply list_elem_of_fmap in Ht as (k & -> & _).
  apply elem_of_group_items in Hin as (r0 & name & Hr0 & _ & Hname & ->).
  by exists r0, name.
Qed.

Lemma column_index_Ok (cols : list string) (name : string) :
  name ∈ cols → ∃ i, column_index cols name = Ok i.
Proof.
  intros Hin. unfold column_index.
  destruct (list_find_elem_of (λ c, c = name) cols name Hin eq_refl)
    as [[i c] ->].
  by exists i.
Qed.

Lemma all_axis1_Ok (df : bool_frame) (names : list string) :
  names ⊆ columns_ df → ∃ bs, all_axis1 df names = Ok bs.
Proof.
  intros Hsub. unfold all_axis1.
  destruct (rmapM_total (column_index (columns_ df)) names) as [idx ->].
  { intros name Hname. apply column_index_Ok. by apply Hsub. }
  simpl. by eexists.
Qed.

Lemma annotate_total (dft : bool_frame) (m : gmap (option string) string)
  (r : rule) :
  antecedents r ⊆ columns_ dft → consequents r ⊆ columns_ dft →
  ∃ row, annotate dft m r = Ok row.
Proof.
  intros HA HC. unfold annotate, combination_count_of.
  destruct (all_axis1_Ok dft (antecedents r) HA) as [a ->].
  destruct (all_axis1_Ok dft (consequents r) HC) as [c ->]. simpl.
  rewrite create_unique_8digit_id_unfold. simpl. by eexists.
Qed.

Lemma rmapM_annotate_mined (dft : bool_frame) (m : gmap (option string) string)
  (rs : list rule) (rules : list annotated_rule) :
  rmapM (annotate dft m) rs = Ok rules → mined <$> rules = rs.
Proof.
  intros HF%rmapM_Ok. induction HF as [|r row rs' rows Hrow _ IH]; [done|].
  apply annotate_Ok in Hrow as [<- _]. rewrite fmap_cons. by f_equal.
Qed.

(** Once there are transactions, steps 4 to 10 stop with ValueError when no
    rule is retained (the assignment of line 62 on a frame without rows) and
    raise nothing when there is a rule; an error of the rule generator is
    passed on. *)
Lemma rules_table_cases (df : list df_row) (ts : list (list string)) :
  transactions df = Ok ts →
  match association_rules (apriori (df_transformed ts) min_support)
                          min_threshold with
  | Ok [] => rules_table df = Raise ValueError
  | Ok rs => ∃ rules, rules_table df = Ok rules ∧ mined <$> rules = rs
  | Raise e => rules_table df = Raise e
  end.
Proof.
  intros Hts. unfold rules_table. rewrite Hts. simpl.
  destruct (association_rules_inv ts min_support min_threshold)
    as (rs & -> & Hinv).
  simpl. destruct rs as [|r0 rs0]; [done|].
  unfold assign_apply_axis1.
  destruct (rmapM_total (annotate (df_transformed ts) (item_bestell_map df))
                        (r0 :: rs0)) as [rules Hrules].
  { intros r Hr.
    destruct (Hinv r Hr) as (I & A & C & HI & Hs & Hmk & _).
    apply make_rule_items in Hmk as [HA HC].
    apply proper_splits_spec in Hs as (_ & _ & _ & HsA & HsC).
    apply sublist_subseteq in HsA, HsC.
    apply apriori_sound in HI as (_ & _ & Hcols & _).
    apply annotate_total; cbn [columns_ df_transformed].
    - rewrite HA. by etrans.
    - rewrite HC. by etrans. }
  exists rules. split; [exact Hrules|]. by eapply rmapM_annotate_mined.
Qed.

(** C10, as stated, fails: " B" is trimmed to "B", and "B" is a key of the
    map because another row carries it, so the lookup hits and the order
    number x2 of the untrimmed row is part of Mat_combination. *)
Lemma trimmed_lookup_hits :
  strip " B" = "B" ∧
  item_bestell_map df_example !! Some " B" = Some "x2" ∧
  item_bestell_map df_example !! Some (strip " B") = Some "x2" ∧
  ∃ rules row, rules_table df_example = Ok rules ∧ row ∈ rules ∧
               antecedents (mined row) = ["B"] ∧ Mat_combination row = "x1-x2".
Proof.
  split_and!; [by vm_compute..|].
  eexists. eexists. split; [vm_compute; reflexivity|].
  split; [by left|]. split; reflexivity.
Qed.

(** C10 (amended): for a row whose item name carries leading or trailing
    white space, the map is keyed on the untrimmed name while the items of
    the rules are trimmed names (the rule table exists when a rule is
    retained, and the run stops with ValueError at line 62 when none is);
    the lookup of the trimmed name misses exactly when no row carries the
    trimmed name as its item name, and then no order number enters
    Mat_combination on behalf of that item. *)
Theorem untrimmed_key_lookup (df : list df_row) (r : df_row) (name : string) :
  r ∈ df → item_column r = Some name → strip name ≠ name →
  let m := item_bestell_map df in
  is_Some (m !! Some name) ∧
  (∀ ts, transactions df = Ok ts →
     match association_rules (apriori (df_transformed ts) min_support)
                             min_threshold with
     | Ok [] => rules_table df = Raise ValueError
     | Ok rs => ∃ rules, rules_table df = Ok rules ∧ mined <$> rules = rs
     | Raise e => rules_table df = Raise e
     end) ∧
  (∀ rules row, rules_table df = Ok rules → row ∈ rules →
     Mat_combination row = get_mat_combination m (mined row) ∧
     ∀ item, item ∈ antecedents (mined row) ∨ item ∈ consequents (mined row) →
             ∃ r' name', r' ∈ df ∧ item_column r' = Some name'
                         ∧ item = strip name') ∧
  (m !! Some (strip name) = None ↔
   ∀ r', r' ∈ df → item_column r' ≠ Some (strip name)) ∧
  (m !! Some (strip name) = None →
   ∀ row, ∃ codes,
     get_mat_combination m row = join "-" codes ∧
     ∀ c, c ∈ codes →
          ∃ item, item ≠ strip name
                  ∧ (item ∈ antecedents row ∨ item ∈ consequents row)
                  ∧ m !! Some item = Some c).
Proof.
  intros Hr Hname Hstrip m. subst m. split_and!.
  - apply item_bestell_map_is_Some. by exists r.
  - apply rules_table_cases.
  - intros rules row. apply rules_table_rows.
  - rewrite eq_None_not_Some, item_bestell_map_is_Some. split.
    + intros Hno r' Hr' Hi. apply Hno. by exists r'.
    + intros Hall (r' & Hr' & Hi). by apply (Hall r').
  - intros Hnone row. exists (bestellnummern (item_bestell_map df) row).
    split; [done|].
    intros c (item & Hitem & Hc)%elem_of_bestellnummern.
    exists item. split_and!; [|done..]. intros ->. by rewrite Hnone in Hc.
Qed.

(** C10 (amended) at [df_untrimmed], where " B" is the only spelling of its
    item: the map has the key " B" and no key "B", the rule table has a row
    with the item "B", and the Mat_combination of that row is made of order
    numbers of other items only. *)
Lemma untrimmed_key_lookup_witness :
  is_Some (item_bestell_map df_untrimmed !! Some " B") ∧
  item_bestell_map df_untrimmed !! Some (strip " B") = None ∧
  ∃ rules row codes,
    rules_table df_untrimmed = Ok rules ∧ row ∈ rules ∧
    "B" ∈ antecedents (mined row) ∧
    Mat_combination row = join "-" codes ∧
    ∀ c, c ∈ codes →
         ∃ item, item ≠ strip " B"
                 ∧ (item ∈ antecedents (mined row)
                    ∨ item ∈ consequents (mined row))
                 ∧ item_bestell_map df_untrimmed !! Some item = Some c.
Proof.
  destruct (untrimmed_key_lookup df_untrimmed
    {| id_column := Some 1; item_column := Some " B";
       bestellnummer_column := "x2" |} " B")
    as (Hkey & Htable & Hrows & Hmiss & Hcodes).
  { right. by left. }
  { reflexivity. }
  { by vm_compute. }
  assert (item_bestell_map df_untrimmed !! Some (strip " B") = None) as Hnone.
  { apply Hmiss. intros r' Hr'. unfold df_untrimmed in Hr'.
    rewrite !elem_of_cons, elem_of_nil in Hr'.
    destruct Hr' as [->|[->|[]]]; by vm_compute. }
  split; [exact Hkey|]. split; [exact Hnone|].
  assert (transactions df_untrimmed = Ok [["A"; "B"]]) as Hts
    by (vm_compute; reflexivity).
  specialize (Htable _ Hts).
  assert (∃ ra rb,
            association_rules
              (apriori (df_transformed [["A"; "B"]]) min_support) min_threshold
            = Ok [ra; rb] ∧ antecedents ra = ["B"]) as (ra & rb & Hrs & Hant).
  { eexists. eexists. split; [vm_compute; reflexivity|reflexivity]. }
  rewrite Hrs in Htable. destruct Htable as (rules & Hrules & Hmined).
  destruct rules as [|row [|b [|c rules]]]; try discriminate Hmined.
  injection Hmined as Hrow _.
  assert (row ∈ [row; b]) as Hin by left.
  destruct (Hrows _ _ Hrules Hin) as [Hmat _].
  destruct (Hcodes Hnone (mined row)) as (codes & Hjoin & Hc).
  exists [row; b], row, codes. split; [exact Hrules|]. split; [exact Hin|].
  split; [rewrite Hrow, Hant; left|].
  split; [by rewrite Hmat|exact Hc].
Defined.

(** ** Export *)

(** C7, as stated, fails on the label of the last column: the export has
    "different items", with a space. *)
Lemma rules_export_last_column_differs :
  ∃ o, script df_example = Ok o ∧
       frame_columns (out_export o) ≠ spec_export_columns ∧
       last (frame_columns (out_export o)) = Some "different items".
Proof.
  eexists. split; [vm_compute; reflexivity|]. simpl. split; [|reflexivity].
  discriminate.
Qed.

Lemma rules_table_mined (df : list df_row) (rules : list annotated_rule) :
  rules_table df = Ok rules →
  ∃ ts, transactions df = Ok ts ∧
        association_rules (apriori (df_transformed ts) min_support)
                          min_threshold
        = Ok (mined <$> rules).
Proof.
  unfold rules_table. destruct (transactions df) as [ts|]; [|done]. simpl.
  destruct (association_rules _ _) as [rs|] eqn:Hrs; [|done]. simpl.
  intros HF%assign_apply_axis1_Ok%rmapM_Ok.
  exists ts. split; [done|]. rewrite Hrs. f_equal.
  clear Hrs. induction HF as [|r row rs' rows Hrow _ IH]; [done|].
  apply annotate_Ok in Hrow as [<- _]. rewrite fmap_cons. by f_equal.
Qed.

(** C7 (amended): the exported table has exactly the columns antecedents,
    consequents, support, confidence, lift, leverage, conviction,
    zhangs_metric, combination_count, Mat_combination, Mat_combination_id and
    "different items", in that order, and one row per retained rule; the
    rows of the rule table are, in order, the rules as the generator
    returned them. *)
Theorem rules_export_spec (rules : list annotated_rule) :
  (∃ f, rules_export rules = Ok f ∧
        frame_columns f =
          ["antecedents"; "consequents"; "support"; "confidence"; "lift";
           "leverage"; "conviction"; "zhangs_metric"; "combination_count";
           "Mat_combination"; "Mat_combination_id"; "different items"] ∧
        frame_rows f =
          (λ r, [CStr (antecedents_str r); CStr (consequents_str r);
                 CNum (Finite (support (mined r)));
                 CNum (Finite (confidence (mined r)));
                 CNum (Finite (lift (mined r)));
                 CNum (Finite (leverage (mined r)));
                 CNum (conviction (mined r));
                 CNum (Finite (zhangs_metric (mined r)));
                 CInt (combination_count r); CStr (Mat_combination r);
                 CStr (Mat_combination_id r);
                 CInt (Z.of_nat (different_items r))]) <$> rules) ∧
  (∀ df, rules_table df = Ok rules →
         ∃ ts, transactions df = Ok ts ∧
               association_rules (apriori (df_transformed ts) min_support)
                                 min_threshold
               = Ok (mined <$> rules)).
Proof.
  split; [|intros df; apply rules_table_mined].
  unfold rules_export, frame_select.
  change (rmapM (column_index (frame_columns (rules_frame rules))) export_columns)
    with (Ok [0; 1; 4; 5; 6; 7; 8; 9; 10; 11; 12; 13]%nat).
  eexists. split; [reflexivity|]. split; [reflexivity|].
  simpl. rewrite <-list_fmap_compose. done.
Qed.

(** C7 (amended) at [df_example]: the twelve rows of its rule table are the
    twelve rules of the generator. *)
Lemma rules_export_spec_witness :
  ∃ rules ts, rules_table df_example = Ok rules ∧ length rules = 12%nat ∧
              transactions df_example = Ok ts ∧
              association_rules (apriori (df_transformed ts) min_support)
                                min_threshold
              = Ok (mined <$> rules).
Proof.
  assert (∃ rules, rules_table df_example = Ok rules ∧ length rules = 12%nat)
    as (rules & Hr & Hlen).
  { eexists. split; [vm_compute; reflexivity|reflexivity]. }
  destruct (proj2 (rules_export_spec rules) df_example Hr) as (ts & Hts & Hrs).
  exists rules, ts. split; [exact Hr|]. split; [exact Hlen|].
  split; [exact Hts|exact Hrs].
Defined.

(** ** Mat_combination of the rule table *)

(** C6: Mat_combination is the order numbers found for the items of
    antecedent ∪ consequent (items without an entry contribute nothing), in
    strictly ascending lexicographic order (sorted, each once), joined by
    '-'; it is the empty string when no item has an entry; it does not
    depend on the order in which the two sets are walked; and it is what
    every row of the rule table holds. *)
Theorem get_mat_combination_spec (m : gmap (option string) string) (row : rule) :
  (∃ codes,
     get_mat_combination m row = join "-" codes ∧
     StronglySorted str_lt codes ∧
     ∀ c, c ∈ codes ↔
          ∃ item, (item ∈ antecedents row ∨ item ∈ consequents row)
                  ∧ m !! Some item = Some c) ∧
  ((∀ item, item ∈ antecedents row ∨ item ∈ consequents row →
            m !! Some item = None) →
   get_mat_combination m row = "") ∧
  (∀ row',
     (∀ item, item ∈ antecedents row ∨ item ∈ consequents row ↔
              item ∈ antecedents row' ∨ item ∈ consequents row') →
     get_mat_combination m row = get_mat_combination m row') ∧
  (∀ df rules r,
     rules_table df = Ok rules → r ∈ rules →
     Mat_combination r = get_mat_combination (item_bestell_map df) (mined r)).
Proof.
  split_and!;
    [| | |intros df rules r Hr Hin; exact (proj1 (rules_table_rows df rules r Hr Hin))].
  - exists (bestellnummern m row). split_and!; [done|..].
    + apply sorted_drop_duplicates_strict.
    + apply elem_of_bestellnummern.
  - intros Hnone. unfold get_mat_combination.
    destruct (bestellnummern m row) as [|c l] eqn:Hb; [done|].
    assert (c ∈ bestellnummern m row) as Hin by (rewrite Hb; left).
    apply elem_of_bestellnummern in Hin as (item & Hitem & Hc).
    rewrite (Hnone item Hitem) in Hc. done.
  - intros row' Hsame. unfold get_mat_combination.
    by rewrite (bestellnummern_same_items m row row').
Qed.

(** C6 at [rule_example] with an empty map: no item has an entry, the
    result is the empty string. *)
Lemma get_mat_combination_spec_witness :
  get_mat_combination ∅ rule_example = "".
Proof.
  apply (proj1 (proj2 (get_mat_combination_spec ∅ rule_example))).
  intros item _. apply lookup_empty.
Defined.

Example get_mat_combination_example :
  get_mat_combination
    (dict [(Some "A", "x9"); (Some "B", "x10"); (Some "C", "x1")]) rule_example
  = "x10-x9".
Proof. by vm_compute. Qed.

(** * Further properties *)

(** ** Further properties: the input stage *)

(** X1: [item in item_bestell_map] holds for a name exactly when a row of
    the sheet carries this name, as it is written (untrimmed), in its item
    cell, and the order number stored for it is the order number of some row
    that carries this name. *)
Theorem item_bestell_map_domain (df : list df_row) (name : string) :
  (is_Some (item_bestell_map df !! Some name) ↔
   ∃ r, r ∈ df ∧ item_column r = Some name) ∧
  (∀ c, item_bestell_map df !! Some name = Some c →
        ∃ r, r ∈ df ∧ item_column r = Some name ∧ bestellnummer_column r = c).
Proof.
  split; [apply item_bestell_map_is_Some|].
  intros c Hc. unfold item_bestell_map, unique_items, item_pairs in Hc.
  apply dict_lookup_Some, elem_of_drop_duplicates, list_elem_of_fmap in Hc
    as (r & [= Hi ->] & Hr).
  by exists r.
Qed.

(** X1 at the name " B" of [df_example]. *)
Lemma item_bestell_map_domain_witness :
  ∃ r, r ∈ df_example ∧ item_column r = Some " B"
       ∧ bestellnummer_column r = "x2".
Proof.
  apply (proj2 (item_bestell_map_domain df_example " B")).
  by vm_compute.
Defined.

(** ** Further properties: the 8-digit id *)

Lemma leading_zeros_0 (s : string) :
  leading_zeros s = 0%nat ↔ String.get 0 s ≠ Some "0"%char.
Proof.
  destruct s as [|c s]; simpl; [done|].
  case_bool_decide as Hc.
  - split; [done|]. intros Hne. exfalso. apply Hne. by rewrite Hc.
  - split; [|done]. intros _ [= ->]. done.
Qed.

Lemma sub_leading_zeros_id (s : string) :
  leading_zeros s = 0%nat → sub_leading_zeros s = s.
Proof. intros Hz. unfold sub_leading_zeros. rewrite Hz. by destruct s. Qed.

Lemma leading_zeros_sub (s : string) : leading_zeros (sub_leading_zeros s) = 0%nat.
Proof.
  destruct (leading_zeros s) as [|n] eqn:Hz.
  - by rewrite sub_leading_zeros_id.
  - unfold sub_leading_zeros. rewrite Hz. reflexivity.
Qed.

(** X2: the substitution of line 113, on any string: it keeps the length,
    writes '9' over the leading run of '0' and leaves every other position
    as it is, leaves no leading '0', changes nothing in a string that does
    not start with '0', and applying it twice is applying it once. *)
Theorem sub_leading_zeros_spec (s : string) :
  String.length (sub_leading_zeros s) = String.length s ∧
  (∀ i, String.get i (sub_leading_zeros s)
        = if decide (i < leading_zeros s)%nat then Some "9"%char
          else String.get i s) ∧
  String.get 0 (sub_leading_zeros s) ≠ Some "0"%char ∧
  (String.get 0 s ≠ Some "0"%char → sub_leading_zeros s = s) ∧
  sub_leading_zeros (sub_leading_zeros s) = sub_leading_zeros s.
Proof.
  split_and!.
  - apply length_sub_leading_zeros.
  - apply get_sub_leading_zeros.
  - apply leading_zeros_0, leading_zeros_sub.
  - intros Hne. by apply sub_leading_zeros_id, leading_zeros_0.
  - apply sub_leading_zeros_id, leading_zeros_sub.
Qed.

(** X2 at a string that does not start with '0'. *)
Lemma sub_leading_zeros_spec_witness : sub_leading_zeros "12034" = "12034".
Proof.
  apply (proj1 (proj2 (proj2 (proj2 (sub_leading_zeros_spec "12034"))))).
  discriminate.
Defined.

(** X3: the id never starts with '0': its first character is one of the
    digits 1 to 9, so read as a number it lies between 10000000 and
    99999999. *)
Theorem create_unique_8digit_id_no_leading_zero (s : string) :
  ∃ id d, create_unique_8digit_id s = Ok id ∧ 1 ≤ d ≤ 9 ∧
          String.get 0 id = Some (digit_char d).
Proof.
  rewrite create_unique_8digit_id_unfold.
  set (m := be_value (sha256 (encode_utf8 s)) mod 10 ^ 8).
  exists (sub_leading_zeros (dec 8 m)). rewrite get_sub_leading_zeros.
  destruct (decide (0 < leading_zeros (dec 8 m))%nat) as [Hz|Hz].
  - exists 9. split; [done|]. split; [lia|done].
  - exists ((m / 10 ^ 7) mod 10). split; [done|].
    assert (String.get 0 (dec 8 m) = Some (digit_char ((m / 10 ^ 7) mod 10)))
      as Hget by reflexivity.
    split; [|done].
    pose proof (Z.mod_pos_bound (m / 10 ^ 7) 10 ltac:(lia)) as Hd.
    enough ((m / 10 ^ 7) mod 10 ≠ 0) by lia.
    intros H0. apply Hz.
    assert (leading_zeros (dec 8 m) ≠ 0%nat); [|lia].
    rewrite leading_zeros_0, Hget, H0. by intros Hne.
Qed.

Lemma be_value_bound_from (l : list Z) (acc : Z) :
  0 ≤ acc → Forall (λ b, 0 ≤ b < 256) l →
  0 ≤ foldl (λ a b, a * 256 + b) acc l
    < (acc + 1) * 256 ^ Z.of_nat (length l).
Proof.
  intros Hacc Hl. revert acc Hacc.
  induction Hl as [|b l Hb Hl IH]; intros acc Hacc; simpl foldl.
  { simpl. lia. }
  specialize (IH (acc * 256 + b) ltac:(lia)).
  rewrite length_cons, Nat2Z.inj_succ, Z.pow_succ_r by lia.
  assert (0 < 256 ^ Z.of_nat (length l)) by (apply Z.pow_pos_nonneg; lia).
  nia.
Qed.

Lemma length_sha256 (data : list Z) : length (sha256 data) = 32%nat.
Proof.
  unfold sha256. set (st := foldl sha_block sha_H0 _).
  assert (length st = 8%nat) as Hlen by apply length_sha_state.
  destruct st as [|a [|b [|c [|d [|e [|f [|g [|h [|? ?]]]]]]]]]; done.
Qed.

Lemma length_hexdigest (l : list Z) :
  String.length (hexdigest l) = (2 * length l)%nat.
Proof. induction l as [|b l IH]; simpl; [done|]. rewrite IH. lia. Qed.

(** X4: lines 98 to 101 never raise: the hexadecimal digest has 64
    characters, [int(sha_value, 16)] reads it back as the big-endian value of
    the 32 digest bytes, and that value is below 2^256. *)
Theorem hash_int_roundtrip (s : string) :
  let digest := sha256 (encode_utf8 s) in
  String.length (hexdigest digest) = 64%nat ∧
  int_base16 (hexdigest digest) = Ok (be_value digest) ∧
  0 ≤ be_value digest < 2 ^ 256.
Proof.
  intros digest. destruct (sha256_digest (encode_utf8 s)) as [Hne Hrange].
  split; [|split].
  - unfold digest. by rewrite length_hexdigest, length_sha256.
  - by apply int_base16_hexdigest.
  - pose proof (be_value_bound_from digest 0 ltac:(lia) Hrange) as Hb.
    unfold digest in Hb. rewrite length_sha256 in Hb.
    replace ((0 + 1) * 256 ^ Z.of_nat 32) with (2 ^ 256) in Hb
      by (vm_compute; reflexivity).
    exact Hb.
Qed.

(** ** Further properties: the annotation columns *)

Lemma rmapM_Raise {A B : Type} (f : A → result B) (l : list A) (e : exn) :
  rmapM f l = Raise e → ∃ x, x ∈ l ∧ f x = Raise e.
Proof.
  induction l as [|x l IH]; simpl; [done|].
  destruct (f x) as [y|e'] eqn:Hx; simpl.
  - destruct (rmapM f l) as [ys|e'']; simpl; [done|].
    intros [= ->]. destruct (IH eq_refl) as (x' & Hx' & He).
    exists x'. split; [by right|done].
  - intros [= ->]. exists x. split; [by left|done].
Qed.

Lemma column_index_Some (cols : list string) (name : string) (i : nat) :
  column_index cols name = Ok i → cols !! i = Some name.
Proof.
  unfold column_index.
  destruct (list_find (λ c, c = name) cols) as [[j c]|] eqn:Hf; [|done].
  intros [= <-]. by apply list_find_Some in Hf as (Hj & -> & _).
Qed.

Lemma column_index_Raise (cols : list string) (name : string) (e : exn) :
  column_index cols name = Raise e → e = KeyError ∧ name ∉ cols.
Proof.
  unfold column_index.
  destruct (list_find (λ c, c = name) cols) as [[j c]|] eqn:Hf; [done|].
  intros [= <-]. split; [done|]. intros Hin.
  destruct (list_find_elem_of (λ c, c = name) cols name Hin eq_refl) as [? Hs].
  by rewrite Hf in Hs.
Qed.

Lemma all_axis1_Raise (df : bool_frame) (names : list string) (e : exn) :
  all_axis1 df names = Raise e →
  e = KeyError ∧ ∃ name, name ∈ names ∧ name ∉ columns_ df.
Proof.
  unfold all_axis1.
  destruct (rmapM (column_index (columns_ df)) names) as [idx|e'] eqn:Hm;
    simpl; [done|].
  intros [= ->]. apply rmapM_Raise in Hm as (name & Hname & Hc).
  apply column_index_Raise in Hc as [-> Hnot]. split; [done|]. by exists name.
Qed.

(** X5: on any boolean frame, computing combination_count raises exactly
    when an item of the rule is not a column label, and what it raises is
    KeyError; it returns a count that is at most the number of rows. *)
Theorem combination_count_of_KeyError (df : bool_frame) (row : rule) :
  (∀ e, combination_count_of df row = Raise e →
        e = KeyError ∧
        ∃ item, (item ∈ antecedents row ∨ item ∈ consequents row)
                ∧ item ∉ columns_ df) ∧
  ((∀ item, item ∈ antecedents row ∨ item ∈ consequents row →
            item ∈ columns_ df) →
   ∃ n, combination_count_of df row = Ok n ∧ (n ≤ length (te_ary df))%nat).
Proof.
  unfold combination_count_of. split.
  - intros e.
    destruct (all_axis1 df (antecedents row)) as [a|e1] eqn:Ha; simpl.
    + destruct (all_axis1 df (consequents row)) as [c|e2] eqn:Hc; simpl;
        [done|].
      intros [= ->]. apply all_axis1_Raise in Hc as [-> (item & Hi & Hn)].
      split; [done|]. exists item. split; [by right|done].
    + intros [= ->]. apply all_axis1_Raise in Ha as [-> (item & Hi & Hn)].
      split; [done|]. exists item. split; [by left|done].
  - intros Hcols.
    destruct (all_axis1 df (antecedents row)) as [a|e1] eqn:Ha; simpl.
    + destruct (all_axis1 df (consequents row)) as [c|e2] eqn:Hc; simpl.
      * eexists. split; [done|].
        etrans; [apply length_filter|]. rewrite length_zip_with.
        unfold all_axis1 in Ha.
        destruct (rmapM _ (antecedents row)); simpl in Ha; [|done].
        injection Ha as <-. rewrite length_fmap. lia.
      * apply all_axis1_Raise in Hc as [_ (item & Hi & Hn)].
        exfalso. apply Hn, Hcols. by right.
    + apply all_axis1_Raise in Ha as [_ (item & Hi & Hn)].
      exfalso. apply Hn, Hcols. by left.
Qed.

(** X5 at a rule whose items are columns of the frame. *)
Lemma combination_count_of_KeyError_witness :
  ∃ n, combination_count_of (df_transformed T_example) rule_example = Ok n
       ∧ (n ≤ 3)%nat.
Proof.
  apply (proj2 (combination_count_of_KeyError (df_transformed T_example)
                  rule_example)).
  intros item [->%list_elem_of_singleton| ->%list_elem_of_singleton];
    apply (bool_decide_unpack _); by vm_compute.
Defined.

Lemma bool_decide_of_iff (b : bool) (P : Prop) `{Decision P} :
  (b ↔ P) → b = bool_decide P.
Proof.
  intros Hiff. destruct b.
  - symmetry. apply bool_decide_eq_true. by apply Hiff.
  - symmetry. apply bool_decide_eq_false. intros HP. by apply Hiff in HP.
Qed.

Lemma all_axis1_transformed (ts : list (list string)) (names : list string) :
  names ⊆ te_fit ts →
  all_axis1 (df_transformed ts) names
  = Ok ((λ t, bool_decide (names ⊆ t)) <$> ts).
Proof.
  intros Hsub. unfold all_axis1, df_transformed. cbn [columns_ te_ary].
  destruct (rmapM_total (column_index (te_fit ts)) names) as [idx Hidx].
  { intros name Hname. apply column_index_Ok. by apply Hsub. }
  rewrite Hidx. simpl. f_equal. apply rmapM_Ok in Hidx.
  assert (labels (te_fit ts) idx = names
          ∧ Forall (λ j, (j < length (te_fit ts))%nat) idx) as [Hl Hb].
  { clear Hsub. induction Hidx as [|name i names idx Hi _ IH]; [done|].
    apply column_index_Some in Hi. destruct IH as [IH1 IH2]. split.
    - unfold labels in *. rewrite fmap_cons, Hi, IH1. done.
    - constructor; [by eapply lookup_lt_Some|done]. }
  unfold te_transform. rewrite <-list_fmap_compose.
  apply list_fmap_ext. intros _ t _. simpl.
  apply bool_decide_of_iff. rewrite <-Hl.
  by apply (covers_labels (te_fit ts) t idx).
Qed.

Lemma length_filter_zip_andb {A : Type} (P Q : A → Prop)
  `{∀ x, Decision (P x)} `{∀ x, Decision (Q x)} (l : list A) :
  length (filter (λ b : bool, b)
            (zip_with andb ((λ x, bool_decide (P x)) <$> l)
                           ((λ x, bool_decide (Q x)) <$> l)))
  = length (filter (λ x, P x ∧ Q x) l).
Proof.
  induction l as [|x l IH]; [done|].
  rewrite !fmap_cons. simpl zip_with. rewrite !filter_cons.
  destruct (decide (P x ∧ Q x)) as [[HP HQ]|Hno].
  - rewrite !bool_decide_eq_true_2 by done. simpl. by rewrite IH.
  - assert (bool_decide (P x) && bool_decide (Q x) = false) as ->.
    { apply andb_false_iff.
      destruct (decide (P x)); [right|left];
        apply bool_decide_eq_false_2; tauto. }
    simpl. by rewrite IH.
Qed.

Lemma combination_count_of_transformed (ts : list (list string)) (row : rule) :
  antecedents row ⊆ te_fit ts → consequents row ⊆ te_fit ts →
  combination_count_of (df_transformed ts) row
  = Ok (length (filter (λ t, antecedents row ⊆ t ∧ consequents row ⊆ t) ts)).
Proof.
  intros HA HC. unfold combination_count_of.
  rewrite !all_axis1_transformed by done. simpl. f_equal.
  apply (length_filter_zip_andb (λ t, antecedents row ⊆ t)
                                (λ t, consequents row ⊆ t)).
Qed.

Lemma annotate_inv (dft : bool_frame) (m : gmap (option string) string)
  (r : rule) (row : annotated_rule) :
  annotate dft m r = Ok row →
  mined row = r ∧
  (∃ n, combination_count_of dft r = Ok n ∧ combination_count row = Z.of_nat n) ∧
  Mat_combination row = get_mat_combination m r ∧
  create_unique_8digit_id (Mat_combination row) = Ok (Mat_combination_id row) ∧
  different_items row = length (union (antecedents r) (consequents r)) ∧
  antecedents_str row = render (antecedents r) ∧
  consequents_str row = render (consequents r).
Proof.
  unfold annotate. destruct (combination_count_of dft r) as [n|]; [|done].
  simpl. destruct (create_unique_8digit_id _) as [i|] eqn:Hid; [|done].
  simpl. intros [= <-]. cbn. split_and!; try done. by exists n.
Qed.

(** Where a row of the rule table comes from. *)
Lemma rules_table_inv (df : list df_row) (rules : list annotated_rule)
  (row : annotated_rule) :
  rules_table df = Ok rules → row ∈ rules →
  ∃ ts I A C,
    transactions df = Ok ts ∧
    I ∈ apriori (df_transformed ts) min_support ∧
    (A, C) ∈ proper_splits (itemsets I) ∧
    make_rule (apriori (df_transformed ts) min_support) I A C = Ok (mined row) ∧
    annotate (df_transformed ts) (item_bestell_map df) (mined row) = Ok row.
Proof.
  unfold rules_table. destruct (transactions df) as [ts|] eqn:Hts; [|done].
  simpl. destruct (association_rules_inv ts min_support min_threshold)
    as (rs & Hrs & Hinv).
  rewrite Hrs. simpl. intros Hann%assign_apply_axis1_Ok Hrow.
  destruct (rmapM_elem_of _ _ _ _ Hann Hrow) as (r & Hr & Hrow').
  pose proof (annotate_Ok _ _ _ _ Hrow') as [<- _].
  destruct (Hinv _ Hr) as (I & A & C & HI & Hs & Hmk & _).
  by exists ts, I, A, C.
Qed.

(** X6: in the rule table, combination_count is the number of transactions
    that contain every item of the antecedent and of the consequent; it is
    at least 1 and at most the number of transactions, and the rule's
    support is this count divided by the number of transactions. *)
Theorem combination_count_transactions (df : list df_row)
  (rules : list annotated_rule) (row : annotated_rule) :
  rules_table df = Ok rules → row ∈ rules →
  ∃ ts, transactions df = Ok ts ∧
        combination_count row
        = Z.of_nat (length (filter (λ t, antecedents (mined row) ⊆ t
                                         ∧ consequents (mined row) ⊆ t) ts)) ∧
        1 ≤ combination_count row ≤ Z.of_nat (length ts) ∧
        support (mined row)
        = (inject_Z (combination_count row) / inject_Z (Z.of_nat (length ts)))%Q.
Proof.
  intros Hr Hrow.
  destruct (rules_table_inv df rules row Hr Hrow)
    as (ts & I & A & C & Hts & HI & Hs & Hmk & Hann).
  exists ts. split; [done|].
  destruct (make_rule_spec ts min_support I A C HI Hs)
    as (r' & Hr' & HA & HC & Hsup & _ & _ & _ & _).
  rewrite Hmk in Hr'. injection Hr' as <-.
  pose proof Hs as (_ & _ & HP & HsA & HsC)%proper_splits_spec.
  apply sublist_subseteq in HsA, HsC.
  pose proof HI as (_ & _ & Hcols & HsI & HfI)%apriori_sound.
  apply annotate_inv in Hann as (_ & (n & Hn & Hcc) & _).
  rewrite combination_count_of_transformed in Hn
    by (rewrite ?HA, ?HC; by etrans).
  injection Hn as <-. rewrite HA, HC in *.
  assert (filter (λ t, A ⊆ t ∧ C ⊆ t) ts = filter (λ t, A ++ C ⊆ t) ts) as Hf.
  { apply list_filter_iff. intros t. split.
    - intros [H1 H2] x [?|?]%elem_of_app; auto.
    - intros H12. split; intros x Hx; apply H12, elem_of_app; auto. }
  split; [done|]. split.
  - split; [|rewrite Hcc; apply inj_le, length_filter].
    rewrite Hcc, Hf.
    destruct (true_support_pos ts (A ++ C)) as (t & Ht & Hsub).
    { rewrite <-Hsup.
      assert (support (mined row) = itemset_support I) as ->.
      { unfold make_rule in Hmk.
        destruct (support_lookup _ A); [|done].
        destruct (support_lookup _ C); [|done]. simpl in Hmk.
        by injection Hmk as <-. }
      eapply Qlt_le_trans; [|exact HfI]. reflexivity. }
    assert (t ∈ filter (λ t, A ++ C ⊆ t) ts) as Hin
      by (by apply list_elem_of_filter).
    destruct (filter (λ t, A ++ C ⊆ t) ts); [by apply elem_of_nil in Hin|].
    simpl. lia.
  - rewrite Hsup, Hcc, Hf. reflexivity.
Qed.

(** X6 at the first rule of [df_example]. *)
Lemma combination_count_transactions_witness :
  ∃ rules row ts,
    rules_table df_example = Ok rules ∧ row ∈ rules ∧
    transactions df_example = Ok ts ∧
    1 ≤ combination_count row ≤ Z.of_nat (length ts).
Proof.
  assert (∃ rules row, rules_table df_example = Ok rules ∧ row ∈ rules)
    as (rules & row & Hr & Hrow).
  { eexists. eexists. split; [vm_compute; reflexivity|]. by left. }
  destruct (combination_count_transactions df_example rules row Hr Hrow)
    as (ts & Hts & _ & Hb & _).
  exists rules, row, ts. split; [exact Hr|]. split; [exact Hrow|].
  split; [exact Hts|exact Hb].
Defined.

(** X7: in the rule table, 'different items' is the number of items of the
    antecedent plus the number of items of the consequent, and at least 2. *)
Theorem different_items_sum (df : list df_row) (rules : list annotated_rule)
  (row : annotated_rule) :
  rules_table df = Ok rules → row ∈ rules →
  different_items row
  = (length (antecedents (mined row)) + length (consequents (mined row)))%nat ∧
  (2 ≤ different_items row)%nat.
Proof.
  intros Hr Hrow.
  destruct (rules_table_inv df rules row Hr Hrow)
    as (ts & I & A & C & Hts & HI & Hs & Hmk & Hann).
  apply make_rule_items in Hmk as [HA HC].
  apply annotate_inv in Hann as (_ & _ & _ & _ & Hd & _).
  rewrite Hd, HA, HC.
  pose proof Hs as (HneA & HneC & HP & _)%proper_splits_spec.
  pose proof HI as (_ & Hnd & _)%apriori_sound.
  unfold union. rewrite drop_duplicates_NoDup_id by (by rewrite HP).
  rewrite length_app. split; [done|].
  destruct A, C; simpl; try done; lia.
Qed.

(** X7 at the first rule of [df_example]. *)
Lemma different_items_sum_witness :
  ∃ rules row, rules_table df_example = Ok rules ∧ row ∈ rules ∧
               (2 ≤ different_items row)%nat.
Proof.
  assert (∃ rules row, rules_table df_example = Ok rules ∧ row ∈ rules)
    as (rules & row & Hr & Hrow).
  { eexists. eexists. split; [vm_compute; reflexivity|]. by left. }
  exists rules, row. split; [exact Hr|]. split; [exact Hrow|].
  exact (proj2 (different_items_sum df_example rules row Hr Hrow)).
Defined.

(** ** Further properties: the edges of the link graph *)

Lemma elem_of_fst_set_edge (es : list ((string * string) * (Q * Z)))
  (uv k : string * string) (a : Q * Z) :
  k ∈ (set_edge es uv a).*1 ↔ k ∈ es.*1 ∨ k = uv.
Proof.
  induction es as [|e es IH]; simpl.
  { rewrite list_elem_of_singleton, elem_of_nil. tauto. }
  case_decide as He; rewrite !fmap_cons, !elem_of_cons; simpl.
  - rewrite He. tauto.
  - rewrite IH. tauto.
Qed.

Lemma NoDup_set_edge (es : list ((string * string) * (Q * Z)))
  (uv : string * string) (a : Q * Z) :
  NoDup es.*1 → NoDup (set_edge es uv a).*1.
Proof.
  induction es as [|e es IH]; simpl.
  { intros _. apply NoDup_singleton. }
  rewrite ?fmap_cons. intros [Hnot Hnd]%NoDup_cons.
  case_decide as He; rewrite ?fmap_cons; simpl.
  - apply NoDup_cons. by rewrite <-He.
  - apply NoDup_cons. split; [|by apply IH].
    rewrite elem_of_fst_set_edge. intros [?|?]; [done|]. by apply He.
Qed.

Lemma elem_of_set_edge (es : list ((string * string) * (Q * Z)))
  (uv k : string * string) (a b : Q * Z) :
  NoDup es.*1 →
  (k, b) ∈ set_edge es uv a ↔ (k = uv ∧ b = a) ∨ (k ≠ uv ∧ (k, b) ∈ es).
Proof.
  induction es as [|e es IH]; simpl.
  { intros _. rewrite list_elem_of_singleton, elem_of_nil. split.
    - intros [= -> ->]. by left.
    - intros [[-> ->]|[_ []]]. done. }
  rewrite ?fmap_cons. intros [Hnot Hnd]%NoDup_cons.
  case_decide as He; rewrite !elem_of_cons.
  - split.
    + intros [[= -> ->]|Hin]; [by left|]. right. split; [|by right].
      intros ->. apply Hnot. rewrite He. apply list_elem_of_fmap.
      by exists (uv, b).
    + intros [[-> ->]|[Hk [Heq|Hin]]]; [by left| |by right].
      subst e. by destruct Hk.
  - rewrite (IH Hnd). split.
    + intros [Heq|[?|[? ?]]].
      * right. split; [|by left]. intros ->. subst e. by apply He.
      * by left.
      * right. split; [done|by right].
    + intros [?|[? [?|?]]].
      * right. by left.
      * by left.
      * right. right. by split.
Qed.

Lemma edges_build_graph_snoc (rules : list annotated_rule) (r : annotated_rule) :
  edges (build_graph (rules ++ [r]))
  = set_edge (edges (build_graph rules)) (edge_key r) (edge_attrs r).
Proof. unfold build_graph. by rewrite foldl_app. Qed.

Lemma NoDup_edges_build_graph (rules : list annotated_rule) :
  NoDup (edges (build_graph rules)).*1.
Proof.
  induction rules as [|r rules IH] using rev_ind; [apply NoDup_nil_2|].
  rewrite edges_build_graph_snoc. by apply NoDup_set_edge.
Qed.

(** X8: the graph has at most one edge per ordered pair of labels; there is
    an edge from [u] to [v] exactly when some rule is rendered as [u] and
    [v], and the attributes of the edge (weight, combination_count) are
    those of the last such rule: a later [add_edge] on the same pair
    overwrites them. *)
Theorem build_graph_edges (rules : list annotated_rule) :
  NoDup (edges (build_graph rules)).*1 ∧
  (∀ k, k ∈ (edges (build_graph rules)).*1 ↔ ∃ r, r ∈ rules ∧ edge_key r = k) ∧
  (∀ k a, (k, a) ∈ edges (build_graph rules) ↔
          ∃ before r after,
            rules = before ++ r :: after ∧ edge_key r = k ∧ edge_attrs r = a ∧
            Forall (λ r', edge_key r' ≠ k) after).
Proof.
  split; [apply NoDup_edges_build_graph|]. split.
  - intros k. induction rules as [|r rules IH] using rev_ind.
    { simpl. rewrite elem_of_nil. split; [done|].
      by intros (r & ?%elem_of_nil & _). }
    rewrite edges_build_graph_snoc, elem_of_fst_set_edge, IH. split.
    + intros [(r' & Hr' & Hk)| ->].
      * exists r'. split; [apply elem_of_app; by left|done].
      * exists r. split; [apply elem_of_app; right; by left|done].
    + intros (r' & [Hr'| ->%list_elem_of_singleton]%elem_of_app & Hk).
      * left. by exists r'.
      * by right.
  - intros k a. induction rules as [|r rules IH] using rev_ind.
    { simpl. rewrite elem_of_nil. split; [done|].
      intros (before & r & after & Heq & _). by destruct before. }
    rewrite edges_build_graph_snoc,
      (elem_of_set_edge _ _ _ _ _ (NoDup_edges_build_graph rules)), IH.
    split.
    + intros [[-> ->]|[Hk (before & r' & after & -> & Hkey & Hattrs & Hall)]].
      * exists rules, r, []. by rewrite Forall_nil.
      * exists before, r', (after ++ [r]). split; [by rewrite <-app_assoc|].
        split; [done|]. split; [done|].
        apply Forall_app. split; [done|]. apply Forall_singleton. congruence.
    + intros (before & r' & after & Heq & Hkey & Hattrs & Hall).
      destruct after as [|x after _] using rev_ind.
      * apply app_inj_tail in Heq as [-> ->]. left. by rewrite Hkey, Hattrs.
      * rewrite app_comm_cons, app_assoc in Heq.
        apply app_inj_tail in Heq as [-> ->].
        apply Forall_app in Hall as [Hall Hx]. rewrite Forall_singleton in Hx.
        right. split; [intros Hk; by apply Hx|]. by exists before, r', after.
Qed.

(** X8 at a table in which the same rule is listed twice: the pair has its
    edge, with the attributes of the rule. *)
Lemma build_graph_edges_witness :
  (edge_key annotated_example, edge_attrs annotated_example)
  ∈ edges (build_graph [annotated_example; annotated_example]).
Proof.
  apply (proj2 (proj2 (build_graph_edges [annotated_example; annotated_example]))).
  exists [annotated_example], annotated_example, [].
  split; [reflexivity|]. split; [reflexivity|]. split; [reflexivity|].
  apply Forall_nil_2.
Defined.

(** ** Further properties: the run as a whole *)







Lemma str_app_nil_r (a : string) : a +:+ "" = a.
Proof.
  induction a as [|c a IH]; [done|]. by rewrite str_app_cons, IH.
Qed.

(** X10: the rendered side of a rule does not depend on the order in which
    the items of the set are listed, a single item is rendered as itself,
    and each item of the set occurs in the rendered string. *)
Theorem render_spec (x : list string) :
  (∀ y, x ≡ₚ y → render x = render y) ∧
  (∀ item, x = [item] → render x = item) ∧
  (∀ item, item ∈ x → occurs_in item (render x)).
Proof.
  split_and!.
  - intros y Hxy. unfold render. by rewrite (sorted_Permutation x y).
  - intros item ->. reflexivity.
  - intros item Hin. unfold render.
    apply elem_of_sorted in Hin. revert Hin.
    generalize (sorted x). intros l Hin.
    induction l as [|a l IH]; [by apply elem_of_nil in Hin|].
    apply elem_of_cons in Hin as [->|Hin].
    + destruct l as [|b l].
      * exists "", "". by rewrite str_app_nil, str_app_nil_r.
      * exists "", (", " +:+ join ", " (b :: l)). reflexivity.
    + destruct l as [|b l]; [by apply elem_of_nil in Hin|].
      destruct (IH Hin) as (u & v & Huv).
      exists (a +:+ ", " +:+ u), v.
      change (join ", " (a :: b :: l)) with (a +:+ ", " +:+ join ", " (b :: l)).
      rewrite Huv. by rewrite !str_app_assoc.
Qed.

(** X10 at the set {A, B} listed in both orders. *)
Lemma render_spec_witness : render ["B"; "A"] = render ["A"; "B"].
Proof.
  apply (proj1 (render_spec ["B"; "A"])). apply Permutation_swap.
Defined.
